(** * bot_util/misc/api_callers.py

    A shallow embedding of the rate-limited request queue [WovAPICaller] and
    of the API wrappers [WovApiCall] and [LichessApiCall], with the
    properties the specification states about them.

    - asyncio is modelled as a labelled transition system: the only
      coroutine of the module, [process_queue], is cut at its three
      suspension points ([queue.get], [await func( *args )],
      [asyncio.sleep(1)]); callers of [add_to_queue] and the passing of
      time are the other two kinds of event.
    - HTTP collaborators ([aiohttp], [requests], [regulated_request],
      [json.loads]) are parameters of the wrappers.
    - dictionaries are [gmap]s living in a heap, so that two names for one
      dictionary see each other's updates. *)

From stdpp Require Import gmap strings list pretty.

(** ** Python values, exceptions and results *)

#[local] Unset Elimination Schemes.
Inductive pyval :=
| VNone
| VBool (b : bool)
| VInt (n : Z)
| VStr (s : string)
| VList (l : list pyval)
| VDict (d : list (string * pyval)).
#[local] Set Elimination Schemes.

(** Exceptions, as far as [except Exception] tells them apart: the classes
    under [Exception], and those that only derive from [BaseException]
    ([KeyboardInterrupt], [SystemExit], [GeneratorExit],
    [asyncio.CancelledError]). *)
Inductive pyexc :=
| Exception_ (cls msg : string)
| BaseException_ (cls msg : string).

Definition isinstance_Exception (e : pyexc) : bool :=
  match e with
  | Exception_ _ _ => true
  | BaseException_ _ _ => false
  end.

(** [str(e)] *)
Definition str_exc (e : pyexc) : string :=
  match e with
  | Exception_ _ msg => msg
  | BaseException_ _ msg => msg
  end.

(** What evaluating an expression gives: a value, or a raised exception. *)
Inductive outcome (A : Type) :=
| Returned (a : A)
| Raised (e : pyexc).
Arguments Returned {A} a.
Arguments Raised {A} e.

Definition InvalidStateError : pyexc :=
  Exception_ "InvalidStateError" "invalid state".
Definition ValueError (msg : string) : pyexc := Exception_ "ValueError" msg.
Definition TypeError (msg : string) : pyexc := Exception_ "TypeError" msg.

(** [type(e) is StopIteration]: an instance of the class itself, not of a
    subclass of it. *)
Definition is_StopIteration (e : pyexc) : bool :=
  match e with
  | Exception_ cls _ => bool_decide (cls = "StopIteration")
  | BaseException_ _ _ => false
  end.

(** ** asyncio.Future *)

Inductive future :=
| Pending
| Done (o : outcome pyval).

(** The futures allocated so far; a future is named by its position. *)
Definition set_result (f : nat) (v : pyval) (fs : list future)
  : outcome (list future) :=
  match fs !! f with
  | Some Pending => Returned (<[f := Done (Returned v)]> fs)
  | _ => Raised InvalidStateError
  end.

(** [set_exception] checks the state first, and then refuses a
    [StopIteration]: it raises [TypeError] and leaves the future pending. *)
Definition StopIteration_refused : pyexc :=
  TypeError ("StopIteration interacts badly with generators "
             +:+ "and cannot be raised into a Future").

Definition set_exception (f : nat) (e : pyexc) (fs : list future)
  : outcome (list future) :=
  match fs !! f with
  | Some Pending =>
      if is_StopIteration e then Raised StopIteration_refused
      else Returned (<[f := Done (Raised e)]> fs)
  | _ => Raised InvalidStateError
  end.

(** ** The submitted operations

    [await func( *args )] either completes after some time, with a value or
    an exception, or never completes. *)
Inductive behaviour :=
| Completes (d : nat) (o : outcome pyval)
| Blocks.

Definition pyfunc : Type := list pyval → behaviour.

(** The tuple [(func, args, future)] that [add_to_queue] enqueues. *)
Definition task : Type := pyfunc * list pyval * nat.

Definition task_behaviour (tk : task) : behaviour :=
  let '(func, args, _) := tk in func args.
Definition task_future (tk : task) : nat :=
  let '(_, _, fut) := tk in fut.

(** ** asyncio.Queue *)

Record Queue := {
  maxsize : nat;
  items : list task;
  unfinished_tasks : nat
}.

(** [asyncio.Queue()]: [maxsize] defaults to 0, which means unbounded. *)
Definition new_Queue : Queue :=
  {| maxsize := 0; items := []; unfinished_tasks := 0 |}.

Definition full (q : Queue) : bool :=
  if decide (maxsize q = 0) then false
  else bool_decide (maxsize q ≤ length (items q)).

(** [await queue.put(item)]: [None] when the caller would have to suspend
    (the queue is full). *)
Definition put (item : task) (q : Queue) : option Queue :=
  if full q then None
  else Some {| maxsize := maxsize q;
               items := items q ++ [item];
               unfinished_tasks := S (unfinished_tasks q) |}.

(** [await queue.get()]: [None] when the caller has to suspend (the queue
    is empty). *)
Definition get (q : Queue) : option (task * Queue) :=
  match items q with
  | [] => None
  | item :: rest =>
      Some (item, {| maxsize := maxsize q;
                     items := rest;
                     unfinished_tasks := unfinished_tasks q |})
  end.

Definition task_done (q : Queue) : outcome Queue :=
  match unfinished_tasks q with
  | 0 => Raised (ValueError "task_done() called too many times")
  | S n => Returned {| maxsize := maxsize q;
                       items := items q;
                       unfinished_tasks := n |}
  end.

(** ** WovAPICaller *)

(** Where the coroutine [process_queue] stands: suspended in
    [await self.queue.get()]; awaiting [func( *args )] for the task [tk]
    since the time [since]; in [await asyncio.sleep(1)] since the time
    [since]; or ended, because the exception [e] left the [while] loop. *)
Inductive worker_state :=
| AtGet
| AtFunc (tk : task) (since : nat)
| AtSleep (since : nat)
| Dead (e : pyexc).

(** What the worker did, and when: it started the operation of the task
    with future [fut]; it resolved that future and called [task_done]; or
    the operation ended with an exception that left the coroutine. *)
Inductive obs :=
| Started (fut : nat) (t : nat)
| Completed (fut : nat) (t : nat)
| Escaped (fut : nat) (t : nat).

(** A [WovAPICaller] in its event loop: the clock of the loop, [self.queue],
    [self.worker] and the futures created so far. The last three fields are
    history, read by the statements only: the tasks in the order of their
    submission, the number of resumptions of the worker, and what the
    worker did, newest first. *)
Record WovAPICaller := {
  now : nat;
  queue : Queue;
  worker : worker_state;
  futures : list future;
  submitted : list task;
  resumptions : nat;
  trace : list obs
}.

(** [__init__]: an empty queue, and the worker created; it runs up to its
    first [await self.queue.get()]. *)
Definition init : WovAPICaller :=
  {| now := 0; queue := new_Queue; worker := AtGet; futures := [];
     submitted := []; resumptions := 0; trace := [] |}.

(** [add_to_queue]: the new future, the [put], and the future returned. *)
Definition add_to_queue (func : pyfunc) (args : list pyval) (s : WovAPICaller)
  : option (nat * WovAPICaller) :=
  let fut := length (futures s) in
  match put (func, args, fut) (queue s) with
  | None => None
  | Some q =>
      Some (fut, {| now := now s; queue := q; worker := worker s;
                    futures := futures s ++ [Pending];
                    submitted := submitted s ++ [(func, args, fut)];
                    resumptions := resumptions s; trace := trace s |})
  end.

(** The [try] block of [process_queue], once [func( *args )] has given [o]. *)
Definition try_block (o : outcome pyval) (fut : nat) (fs : list future)
  : outcome (list future) :=
  match o with
  | Returned result => set_result fut result fs
  | Raised e => Raised e
  end.

(** The [try] statement: [except Exception as e: future.set_exception(e)]. *)
Definition try_except (o : outcome pyval) (fut : nat) (fs : list future)
  : outcome (list future) :=
  match try_block o fut fs with
  | Returned fs' => Returned fs'
  | Raised e =>
      if isinstance_Exception e then set_exception fut e fs else Raised e
  end.

(** One resumption of [process_queue]: from a suspension point to the next
    one. [None]: the coroutine stays suspended. *)
Definition process_queue (s : WovAPICaller) : option WovAPICaller :=
  match worker s with
  | AtGet =>
      match get (queue s) with
      | None => None
      | Some (tk, q) =>
          Some {| now := now s; queue := q; worker := AtFunc tk (now s);
                  futures := futures s; submitted := submitted s;
                  resumptions := S (resumptions s);
                  trace := Started (task_future tk) (now s) :: trace s |}
      end
  | AtFunc tk since =>
      match task_behaviour tk with
      | Blocks => None
      | Completes d o =>
          if decide (since + d ≤ now s) then
            match try_except o (task_future tk) (futures s) with
            | Raised e =>
                Some {| now := now s; queue := queue s; worker := Dead e;
                        futures := futures s; submitted := submitted s;
                        resumptions := S (resumptions s);
                        trace := Escaped (task_future tk) (now s) :: trace s |}
            | Returned fs =>
                match task_done (queue s) with
                | Raised e =>
                    Some {| now := now s; queue := queue s; worker := Dead e;
                            futures := fs; submitted := submitted s;
                            resumptions := S (resumptions s);
                            trace := Escaped (task_future tk) (now s) :: trace s |}
                | Returned q =>
                    Some {| now := now s; queue := q; worker := AtSleep (now s);
                            futures := fs; submitted := submitted s;
                            resumptions := S (resumptions s);
                            trace := Completed (task_future tk) (now s) :: trace s |}
                end
            end
          else None
      end
  | AtSleep since =>
      if decide (since + 1 ≤ now s) then
        Some {| now := now s; queue := queue s; worker := AtGet;
                futures := futures s; submitted := submitted s;
                resumptions := S (resumptions s); trace := trace s |}
      else None
  | Dead _ => None
  end.

(** ** The event loop

    What happens between two suspensions: some caller awaits
    [add_to_queue(func, *args)]; a unit of time passes; or the worker is
    resumed. An event that cannot happen in a state gives [None]. *)

Inductive event :=
| Submit (func : pyfunc) (args : list pyval)
| Tick
| Work.

Definition tick (s : WovAPICaller) : WovAPICaller :=
  {| now := S (now s); queue := queue s; worker := worker s;
     futures := futures s; submitted := submitted s;
     resumptions := resumptions s; trace := trace s |}.

Definition do_event (ev : event) (s : WovAPICaller) : option WovAPICaller :=
  match ev with
  | Submit func args => snd <$> add_to_queue func args s
  | Tick => Some (tick s)
  | Work => process_queue s
  end.

Fixpoint run (evs : list event) (s : WovAPICaller) : option WovAPICaller :=
  match evs with
  | [] => Some s
  | ev :: evs' =>
      match do_event ev s with
      | None => None
      | Some s' => run evs' s'
      end
  end.

(** ** Python strings: [splitlines] and [strip]

    A character is a code point below 256. *)

(** The line boundaries of [str.splitlines]: LF, VT, FF, CR, FS, GS, RS and
    NEL; CR LF counts as one. *)
Definition is_linebreak (c : Ascii.ascii) : bool :=
  bool_decide (Ascii.nat_of_ascii c ∈ [10; 11; 12; 13; 28; 29; 30; 133]).

(** [str.isspace] on one character. *)
Definition isspace (c : Ascii.ascii) : bool :=
  bool_decide
    (Ascii.nat_of_ascii c ∈ [9; 10; 11; 12; 13; 28; 29; 30; 31; 32; 133; 160]).

(** [cur] holds the characters of the line being read, newest first. *)
Fixpoint splitlines_go (cur : list Ascii.ascii) (s : list Ascii.ascii)
  : list string :=
  match s with
  | [] =>
      match cur with
      | [] => []
      | _ => [String.string_of_list_ascii (rev cur)]
      end
  | c :: s' =>
      if is_linebreak c then
        String.string_of_list_ascii (rev cur) ::
        match s' with
        | c' :: s'' =>
            if bool_decide
                 (Ascii.nat_of_ascii c = 13 ∧ Ascii.nat_of_ascii c' = 10)
            then splitlines_go [] s''
            else splitlines_go [] s'
        | [] => splitlines_go [] s'
        end
      else splitlines_go (c :: cur) s'
  end.

Definition splitlines (s : string) : list string :=
  splitlines_go [] (String.list_ascii_of_string s).

Fixpoint lstrip_chars (s : list Ascii.ascii) : list Ascii.ascii :=
  match s with
  | c :: s' => if isspace c then lstrip_chars s' else s
  | [] => []
  end.

Definition strip_chars (s : list Ascii.ascii) : list Ascii.ascii :=
  rev (lstrip_chars (rev (lstrip_chars s))).

(** [str.strip()] *)
Definition strip (s : string) : string :=
  String.string_of_list_ascii (strip_chars (String.list_ascii_of_string s)).

(** The truth value of a string: it is not empty. *)
Definition truthy (s : string) : bool :=
  match s with
  | EmptyString => false
  | String _ _ => true
  end.

(** ** The state of the module

    The dictionaries live in a heap and are named by their address, so that
    the class attribute [headers] and a local variable bound to it are one
    object. [log] holds the lines given to [logger.error], [sent] the
    requests handed to the HTTP libraries (URL and headers), oldest
    first. *)
Abbreviation dict := (gmap string string).

Record module_state := {
  heap : gmap nat dict;
  WovApiCall_headers : nat;
  WovApiCall_api_url : string;
  LichessApiCall_lichess_url : string;
  LichessApiCall_headers : nat;
  log : list string;
  sent : list (string * dict)
}.

(** The module once imported; the two tokens are what [os.getenv] gave. *)
Definition imported (wov_token li_token : string) : module_state :=
  {| heap := {[ 0 := {[ "Authorization" := "Bot " +:+ wov_token ]};
                1 := {[ "Authorization" := "Bearer " +:+ li_token ]} ]};
     WovApiCall_headers := 0;
     WovApiCall_api_url := "https://api.wolvesville.com/";
     LichessApiCall_lichess_url := "https://lichess.org/api/";
     LichessApiCall_headers := 1;
     log := [];
     sent := [] |}.

(** The dictionary at an address. *)
Definition deref (st : module_state) (a : nat) : dict :=
  default ∅ (heap st !! a).

(** [d[key] = value], for the dictionary at address [a]. *)
Definition setitem (a : nat) (key value : string) (st : module_state)
  : module_state :=
  {| heap := <[a := <[key := value]> (deref st a)]> (heap st);
     WovApiCall_headers := WovApiCall_headers st;
     WovApiCall_api_url := WovApiCall_api_url st;
     LichessApiCall_lichess_url := LichessApiCall_lichess_url st;
     LichessApiCall_headers := LichessApiCall_headers st;
     log := log st;
     sent := sent st |}.

Definition logger_error (msg : string) (st : module_state) : module_state :=
  {| heap := heap st;
     WovApiCall_headers := WovApiCall_headers st;
     WovApiCall_api_url := WovApiCall_api_url st;
     LichessApiCall_lichess_url := LichessApiCall_lichess_url st;
     LichessApiCall_headers := LichessApiCall_headers st;
     log := log st ++ [msg];
     sent := sent st |}.

Definition record_request (url : string) (headers : dict) (st : module_state)
  : module_state :=
  {| heap := heap st;
     WovApiCall_headers := WovApiCall_headers st;
     WovApiCall_api_url := WovApiCall_api_url st;
     LichessApiCall_lichess_url := LichessApiCall_lichess_url st;
     LichessApiCall_headers := LichessApiCall_headers st;
     log := log st;
     sent := sent st ++ [(url, headers)] |}.

(** The response objects of the two HTTP libraries, as far as the module
    reads them. *)
Module aiohttp.
Record ClientResponse := {
  status : Z;
  json : outcome pyval
}.
End aiohttp.

Module requests.
Record Response := {
  status_code : Z;
  text : string;
  json : outcome pyval
}.
End requests.

(** ** WovApiCall *)
Module WovApiCall.
Section Wrappers.

(** [session.get(url=..., headers=...)] of [aiohttp]: a response, or the
    exception of a request that did not get one. *)
Context (session_get : string → dict → outcome aiohttp.ClientResponse).

(** The body shared by the text of the six methods is written out in each,
    as in the source. *)
Definition get_user_by_id (user_id : Z) (st : module_state)
  : outcome pyval * module_state :=
  let url := WovApiCall_api_url st +:+ "players/" +:+ pretty user_id in
  let headers := deref st (WovApiCall_headers st) in
  let st := record_request url headers st in
  match session_get url headers with
  | Raised e => (Raised e, st)
  | Returned response =>
      if decide (aiohttp.status response = 200%Z) then
        (aiohttp.json response, st)
      else
        (Returned VNone,
         logger_error
           ("Wov User API call failed with status code "
            +:+ pretty (aiohttp.status response)
            +:+ ". User ID: " +:+ pretty user_id) st)
  end.

Definition get_user_by_name (username : string) (st : module_state)
  : outcome pyval * module_state :=
  let url := WovApiCall_api_url st +:+ "players/search?username=" +:+ username in
  let headers := deref st (WovApiCall_headers st) in
  let st := record_request url headers st in
  match session_get url headers with
  | Raised e => (Raised e, st)
  | Returned response =>
      if decide (aiohttp.status response = 200%Z) then
        (aiohttp.json response, st)
      else
        (Returned VNone,
         logger_error
           ("Wov User API call failed with status code "
            +:+ pretty (aiohttp.status response)
            +:+ ". Username: " +:+ username) st)
  end.

Definition get_clan_by_id (clan_id : Z) (st : module_state)
  : outcome pyval * module_state :=
  let url := WovApiCall_api_url st +:+ "clans/" +:+ pretty clan_id +:+ "/info" in
  let headers := deref st (WovApiCall_headers st) in
  let st := record_request url headers st in
  match session_get url headers with
  | Raised e => (Raised e, st)
  | Returned response =>
      if decide (aiohttp.status response = 200%Z) then
        (aiohttp.json response, st)
      else
        (Returned VNone,
         logger_error
           ("Wov Clan API call failed with status code "
            +:+ pretty (aiohttp.status response)
            +:+ ". Clan ID: " +:+ pretty clan_id) st)
  end.

Definition get_clan_by_name (clan_name : string) (st : module_state)
  : outcome pyval * module_state :=
  let url := WovApiCall_api_url st +:+ "clans/search?name=" +:+ clan_name in
  let headers := deref st (WovApiCall_headers st) in
  let st := record_request url headers st in
  match session_get url headers with
  | Raised e => (Raised e, st)
  | Returned response =>
      if decide (aiohttp.status response = 200%Z) then
        (aiohttp.json response, st)
      else
        (Returned VNone,
         logger_error
           ("Wov Clan API call failed with status code "
            +:+ pretty (aiohttp.status response)
            +:+ ". Clan name: " +:+ clan_name) st)
  end.

Definition get_clan_members (clan_id : Z) (st : module_state)
  : outcome pyval * module_state :=
  let url := WovApiCall_api_url st +:+ "clans/" +:+ pretty clan_id +:+ "/members" in
  let headers := deref st (WovApiCall_headers st) in
  let st := record_request url headers st in
  match session_get url headers with
  | Raised e => (Raised e, st)
  | Returned response =>
      if decide (aiohttp.status response = 200%Z) then
        (aiohttp.json response, st)
      else
        (Returned VNone,
         logger_error
           ("Wov Clan Members API call failed with status code "
            +:+ pretty (aiohttp.status response)
            +:+ ". Clan ID: " +:+ pretty clan_id) st)
  end.

Definition get_shop (st : module_state) : outcome pyval * module_state :=
  let url := WovApiCall_api_url st +:+ "shop/activeOffers" in
  let headers := deref st (WovApiCall_headers st) in
  let st := record_request url headers st in
  match session_get url headers with
  | Raised e => (Raised e, st)
  | Returned response =>
      if decide (aiohttp.status response = 200%Z) then
        (aiohttp.json response, st)
      else
        (Returned VNone,
         logger_error
           ("Wov Shop API call failed with status code "
            +:+ pretty (aiohttp.status response) +:+ ".") st)
  end.

End Wrappers.
End WovApiCall.

(** ** LichessApiCall *)
Module LichessApiCall.

(** The arguments of [export_by_player]. *)
Record export_args := {
  username : string;
  since : pyval;
  until : pyval;
  limit : pyval;
  vs : pyval;
  rated : pyval;
  perf_type : pyval;
  color : pyval;
  analysed : pyval;
  moves : pyval;
  tags : pyval;
  evals : pyval;
  pgn_in_json : pyval;
  opening : pyval;
  clocks : pyval;
  accuracy : pyval;
  ongoing : pyval;
  finished : pyval;
  literate : pyval;
  lastFen : pyval;
  sort : pyval
}.

(** The defaults of the signature. *)
Definition defaults (username : string) : export_args :=
  {| username := username; since := VNone; until := VNone; limit := VNone;
     vs := VNone; rated := VNone; perf_type := VNone; color := VNone;
     analysed := VNone; moves := VBool true; tags := VBool true;
     evals := VBool true; pgn_in_json := VBool false;
     opening := VBool false; clocks := VBool false;
     accuracy := VBool false; ongoing := VBool false;
     finished := VBool true; literate := VBool false;
     lastFen := VBool false; sort := VStr "dateDesc" |}.

(** The dictionary [params]. *)
Definition params (a : export_args) : list (string * pyval) :=
  [("since", since a); ("until", until a); ("max", limit a); ("vs", vs a);
   ("rated", rated a); ("perfType", perf_type a); ("color", color a);
   ("analysed", analysed a); ("moves", moves a); ("tags", tags a);
   ("evals", evals a); ("pgnInJson", pgn_in_json a);
   ("opening", opening a); ("clocks", clocks a);
   ("accuracy", accuracy a); ("ongoing", ongoing a);
   ("finished", finished a); ("literate", literate a);
   ("lastFen", lastFen a); ("sort", sort a)].

(** A generator object of [export_by_player]: not started yet; suspended
    at the [yield], with the lines the [for] loop has still to read; or
    finished. *)
Inductive generator :=
| Created (a : export_args)
| Suspended (username : string) (lines : list string)
| Finished.

(** What [next(g)] gives the caller. *)
Inductive next_result :=
| Yielded (v : pyval)
| StopIteration
| Propagated (e : pyexc).

Section Wrappers.

(** [requests.get(url=..., headers=...)], the helper [regulated_request] of
    [bot_util.functions.universal], and [json.loads]. *)
Context (requests_get : string → dict → outcome requests.Response).
Context (regulated_request :
  string → dict → list (string * pyval) → outcome requests.Response).
Context (json_loads : string → outcome pyval).

Definition get_user_performance (username perf_type : string)
  (st : module_state) : outcome pyval * module_state :=
  let url := LichessApiCall_lichess_url st
             +:+ "user/" +:+ username +:+ "/perf/" +:+ perf_type in
  let headers := deref st (LichessApiCall_headers st) in
  let st := record_request url headers st in
  match requests_get url headers with
  | Raised e => (Raised e, st)
  | Returned response =>
      if decide (requests.status_code response = 200%Z) then
        (requests.json response, st)
      else
        (Returned VNone,
         logger_error
           ("Lichess User Performance API call failed with status code "
            +:+ pretty (requests.status_code response)
            +:+ ". Username: " +:+ username) st)
  end.

(** [export_by_player] has a [yield] in its body: calling it runs none of
    the body and gives a generator object. *)
Definition export_by_player (a : export_args) (st : module_state)
  : generator * module_state :=
  (Created a, st).

(** The [except Exception as e] clause. *)
Definition except_clause (username : string) (e : pyexc) (st : module_state)
  : next_result * generator * module_state :=
  if isinstance_Exception e then
    (StopIteration, Finished,
     logger_error
       ("Lichess Export By Player API call failed. Username: "
        +:+ username +:+ ". Error: " +:+ str_exc e) st)
  else (Propagated e, Finished, st).

(** The [for] loop, up to the next [yield] or to its end. *)
Fixpoint for_loop (username : string) (lines : list string)
  (st : module_state) : next_result * generator * module_state :=
  match lines with
  | [] => (StopIteration, Finished, st)
  | line :: rest =>
      if truthy (strip line) then
        match json_loads line with
        | Returned v => (Yielded v, Suspended username rest, st)
        | Raised e => except_clause username e st
        end
      else for_loop username rest st
  end.

(** [next(g)]. *)
Definition next (g : generator) (st : module_state)
  : next_result * generator * module_state :=
  match g with
  | Created a =>
      let headers := LichessApiCall_headers st in
      let st := setitem headers "Accept" "application/x-ndjson" st in
      let url := LichessApiCall_lichess_url st
                 +:+ "games/user/" +:+ username a in
      let st := record_request url (deref st headers) st in
      match regulated_request url (deref st headers) (params a) with
      | Raised e => except_clause (username a) e st
      | Returned resp =>
          for_loop (username a) (splitlines (requests.text resp)) st
      end
  | Suspended username lines => for_loop username lines st
  | Finished => (StopIteration, Finished, st)
  end.

(** Iterating over [g], at most [n] calls of [next]: the objects yielded,
    how the iteration ended ([None] when it has not ended yet), and the
    state. *)
Fixpoint iterate (n : nat) (g : generator) (st : module_state)
  : list pyval * option next_result * module_state :=
  match n with
  | 0 => ([], None, st)
  | S n' =>
      match next g st with
      | (Yielded v, g', st') =>
          let '(vs, r, st'') := iterate n' g' st' in (v :: vs, r, st'')
      | (r, _, st') => ([], Some r, st')
      end
  end.

End Wrappers.
End LichessApiCall.

(** ** The import of the module *)

(** [f"...{os.getenv(name)}"]: [os.getenv] gives [None] for a variable that
    is not set, which the f-string writes as [None]. [environ] is the
    environment once [load_dotenv] has run. *)
Definition getenv_formatted (environ : gmap string string) (name : string)
  : string :=
  match environ !! name with
  | Some value => value
  | None => "None"
  end.

(** The import of the module: the two class bodies read their token. *)
Definition import_module (environ : gmap string string) : module_state :=
  imported (getenv_formatted environ "WOV_API_TOKEN")
           (getenv_formatted environ "LI_API_TOKEN").

(** * The vocabulary of the properties

    Everything below this line is about the embedding above: the
    definitions the statements are written with, then the lemmas and the
    theorems. *)

(** ** Reading the trace *)

Fixpoint n_started (tr : list obs) : nat :=
  match tr with
  | [] => 0
  | Started _ _ :: tr' => S (n_started tr')
  | _ :: tr' => n_started tr'
  end.

Fixpoint n_completed (tr : list obs) : nat :=
  match tr with
  | [] => 0
  | Completed _ _ :: tr' => S (n_completed tr')
  | _ :: tr' => n_completed tr'
  end.

(** The completions, newest first: which future, and when. *)
Fixpoint completions (tr : list obs) : list (nat * nat) :=
  match tr with
  | [] => []
  | Completed fut t :: tr' => (fut, t) :: completions tr'
  | _ :: tr' => completions tr'
  end.

(** The tasks whose operation has been started and has not ended. *)
Fixpoint executing (tr : list obs) : list nat :=
  match tr with
  | [] => []
  | Started fut _ :: tr' => fut :: executing tr'
  | Completed fut _ :: tr' => filter (λ g, g ≠ fut) (executing tr')
  | Escaped fut _ :: tr' => filter (λ g, g ≠ fut) (executing tr')
  end.

(** Times (newest first) that are at least one cooldown apart. *)
Fixpoint spaced (ts : list nat) : Prop :=
  match ts with
  | t2 :: ts' =>
      match ts' with
      | t1 :: _ => t1 + 1 ≤ t2
      | [] => True
      end ∧ spaced ts'
  | [] => True
  end.

(** The exceptions the worker stores in a pending future: the instances of
    [Exception], which [except Exception] catches, but for a
    [StopIteration], which [set_exception] refuses. *)
Definition stored (e : pyexc) : bool :=
  isinstance_Exception e && negb (is_StopIteration e).

(** What leaves the [try] statement, and with it the coroutine, when the
    operation has raised an exception [e] that is not stored: [e] itself
    when [except Exception] lets it through, and the [TypeError] of
    [set_exception] when [e] is a [StopIteration]. *)
Definition escaping (e : pyexc) : pyexc :=
  if isinstance_Exception e then StopIteration_refused else e.

(** What the worker stores in the future of a task once its operation has
    ended: nothing when the operation never ends, or ends with an exception
    that is not stored. *)
Definition resolution (tk : task) : option (outcome pyval) :=
  match task_behaviour tk with
  | Completes _ (Returned v) => Some (Returned v)
  | Completes _ (Raised e) => if stored e then Some (Raised e) else None
  | Blocks => None
  end.

(** The operations that end, with a value or with an exception that is
    stored. *)
Definition well_behaved (tk : task) : Prop := is_Some (resolution tk).

(** The shape of every trace: start, end, start, end, ... *)
Fixpoint trace_wf (tr : list obs) : Prop :=
  match tr with
  | [] => True
  | Started fut t :: tr' =>
      fut = n_started tr' ∧ trace_wf tr' ∧
      match tr' with
      | [] => True
      | Completed _ c :: _ => c + 1 ≤ t
      | _ => False
      end
  | Completed fut t :: tr' =>
      trace_wf tr' ∧
      match tr' with
      | Started fut0 t0 :: _ => fut0 = fut ∧ t0 ≤ t
      | _ => False
      end
  | Escaped fut t :: tr' =>
      trace_wf tr' ∧
      match tr' with
      | Started fut0 t0 :: _ => fut0 = fut ∧ t0 ≤ t
      | _ => False
      end
  end.

Definition worker_ok (s : WovAPICaller) : Prop :=
  match worker s with
  | AtGet =>
      match trace s with
      | [] => True
      | Completed _ c :: _ => c + 1 ≤ now s
      | _ => False
      end
  | AtSleep since =>
      match trace s with
      | Completed _ c :: _ => c = since ∧ since ≤ now s
      | _ => False
      end
  | AtFunc tk since =>
      match trace s with
      | Started fut t :: _ =>
          fut = task_future tk ∧ t = since ∧ since ≤ now s ∧
          submitted s !! fut = Some tk
      | _ => False
      end
  | Dead e =>
      match trace s with
      | Escaped fut _ :: _ =>
          ∃ tk d e0, submitted s !! fut = Some tk ∧
                     task_behaviour tk = Completes d (Raised e0) ∧
                     stored e0 = false ∧ e = escaping e0
      | _ => False
      end
  end.

(** The invariant of the reachable states. *)
Record Inv (s : WovAPICaller) : Prop := {
  inv_maxsize : maxsize (queue s) = 0;
  inv_items : items (queue s) = drop (n_started (trace s)) (submitted s);
  inv_unfinished :
    unfinished_tasks (queue s) + n_completed (trace s)
    = length (items (queue s)) + n_started (trace s);
  inv_names : ∀ i tk, submitted s !! i = Some tk → task_future tk = i;
  inv_length : length (futures s) = length (submitted s);
  inv_started : n_started (trace s) ≤ length (submitted s);
  inv_trace : trace_wf (trace s);
  inv_worker : worker_ok s;
  inv_done : ∀ i, i < n_completed (trace s) →
    ∃ tk o, submitted s !! i = Some tk ∧ resolution tk = Some o ∧
            futures s !! i = Some (Done o);
  inv_pending : ∀ i, n_completed (trace s) ≤ i → i < length (futures s) →
    futures s !! i = Some Pending
}.

Definition reachable (s : WovAPICaller) : Prop :=
  ∃ evs, run evs init = Some s.

Definition obs_time (o : obs) : nat :=
  match o with
  | Started _ t | Completed _ t | Escaped _ t => t
  end.

(** No operation starts within a cooldown of any earlier completion. *)
Definition cooldown_respected (tr : list obs) : Prop :=
  ∀ k fut t tr', tr = k ++ Started fut t :: tr' →
  ∀ g c, (g, c) ∈ completions tr' → c + 1 ≤ t.

(** ** Letting the worker run

    [drain n s]: [n] rounds of the event loop with no new submission; each
    round resumes the worker when it can be resumed, and lets one unit of
    time pass when it cannot. *)
Fixpoint drain (n : nat) (s : WovAPICaller) : WovAPICaller :=
  match n with
  | 0 => s
  | S n' =>
      match process_queue s with
      | Some s' => drain n' s'
      | None => drain n' (tick s)
      end
  end.

Fixpoint drain_events (n : nat) (s : WovAPICaller) : list event :=
  match n with
  | 0 => []
  | S n' =>
      match process_queue s with
      | Some s' => Work :: drain_events n' s'
      | None => Tick :: drain_events n' (tick s)
      end
  end.

(** What the worker still has to do before the future [i] is resolved:
    the resumptions and the waiting of the operation in progress and of the
    queued tasks up to [i]. *)
Definition cost (tk : task) : nat :=
  match task_behaviour tk with
  | Completes d _ => d + 4
  | Blocks => 0
  end.

Definition worker_debt (s : WovAPICaller) : nat :=
  match worker s with
  | AtGet => 0
  | AtFunc tk since =>
      match task_behaviour tk with
      | Completes d _ => (since + d - now s) + 3
      | Blocks => 0
      end
  | AtSleep since => (since + 1 - now s) + 1
  | Dead _ => 0
  end.

Definition debt (i : nat) (s : WovAPICaller) : nat :=
  if decide (i < n_completed (trace s)) then 0
  else worker_debt s
       + sum_list (cost <$> take (S i - n_started (trace s)) (items (queue s))).

(** The operations submitted up to future [i] all end, with a value or
    with an exception that is stored. *)
Definition well_behaved_upto (i : nat) (s : WovAPICaller) : Prop :=
  ∀ j tk, j ≤ i → submitted s !! j = Some tk → well_behaved tk.

(** ** A worker that cannot go on

    The worker is halted when an exception has left the coroutine, or when
    the operation it awaits never ends. Nothing resumes it. *)
Definition halted (s : WovAPICaller) : Prop :=
  match worker s with
  | Dead _ => True
  | AtFunc tk _ => task_behaviour tk = Blocks
  | _ => False
  end.


(** ** The scenario of the specification

    Task A succeeds with 1, task B raises [ValueError], task C succeeds
    with 3; and five operations that do not behave: one that exits, one
    that is interrupted, one that is cancelled, one that never ends, and
    one that raises [StopIteration]. *)
Definition op_A : pyfunc := λ _, Completes 2 (Returned (VInt 1)).

Definition op_B : pyfunc := λ _, Completes 0 (Raised (ValueError "B failed")).

Definition op_C : pyfunc := λ _, Completes 1 (Returned (VInt 3)).

Definition op_exit : pyfunc :=
  λ _, Completes 0 (Raised (BaseException_ "SystemExit" "0")).

Definition op_interrupted : pyfunc :=
  λ _, Completes 1 (Raised (BaseException_ "KeyboardInterrupt" "")).

Definition op_cancelled : pyfunc :=
  λ _, Completes 0 (Raised (BaseException_ "CancelledError" "")).

Definition op_forever : pyfunc := λ _, Blocks.

(** An operation that raises [StopIteration]. *)
Definition op_stop : pyfunc :=
  λ _, Completes 0 (Raised (Exception_ "StopIteration" "")).

Definition scenario_ABC : list event :=
  [Submit op_A []; Submit op_B []; Work; Submit op_C []; Tick; Tick; Work;
   Tick; Work; Work; Work; Tick; Tick; Work; Work; Tick; Work].

(** The state the scenario ends in: A completed at time 2, B at time 3 and
    C at time 6. *)
Definition state_ABC : WovAPICaller :=
  {| now := 6;
     queue := {| maxsize := 0; items := []; unfinished_tasks := 0 |};
     worker := AtSleep 6;
     futures := [Done (Returned (VInt 1));
                 Done (Raised (ValueError "B failed"));
                 Done (Returned (VInt 3))];
     submitted := [(op_A, [], 0); (op_B, [], 1); (op_C, [], 2)];
     resumptions := 8;
     trace := [Completed 2 6; Started 2 5; Completed 1 3; Started 1 3;
               Completed 0 2; Started 0 0] |}.

(** ** Idle time *)

(** The state [s], [n] time units later, nothing else changed. *)
Definition later (n : nat) (s : WovAPICaller) : WovAPICaller :=
  {| now := n + now s; queue := queue s; worker := worker s;
     futures := futures s; submitted := submitted s;
     resumptions := resumptions s; trace := trace s |}.

Definition is_Submit (ev : event) : Prop :=
  match ev with Submit _ _ => True | _ => False end.

(** ** Strings and lines *)

(** [sub in s] *)
Definition contains (sub s : string) : Prop :=
  ∃ pre post, s = pre +:+ sub +:+ post.

(** A line is blank when all its characters are white space. *)
Definition blank (line : string) : bool :=
  forallb isspace (String.list_ascii_of_string line).

(** ** The contract of the API wrappers *)

(** What a wrapper owes its caller, given what its request gave (a status
    and what [response.json()] gives, or an exception): with status 200
    the result of [response.json()], nothing logged; with another status
    [None], and one logged message that contains the status code and the
    [keys]; the exception of a failed request is the caller's. *)
Definition status_contract (got : outcome (Z * outcome pyval))
  (keys : list string) (st : module_state)
  (res : outcome pyval * module_state) : Prop :=
  match got with
  | Raised e => res.1 = Raised e ∧ log res.2 = log st
  | Returned (status, payload) =>
      if decide (status = 200%Z) then
        res.1 = payload ∧ log res.2 = log st
      else
        res.1 = Returned VNone ∧
        ∃ msg, log res.2 = log st ++ [msg] ∧
               contains (pretty status) msg ∧
               Forall (λ k, contains k msg) keys
  end.

Definition aiohttp_got (r : outcome aiohttp.ClientResponse)
  : outcome (Z * outcome pyval) :=
  match r with
  | Returned response =>
      Returned (aiohttp.status response, aiohttp.json response)
  | Raised e => Raised e
  end.

Definition requests_got (r : outcome requests.Response)
  : outcome (Z * outcome pyval) :=
  match r with
  | Returned response =>
      Returned (requests.status_code response, requests.json response)
  | Raised e => Raised e
  end.

(** Collaborators for the examples: a host that cannot be reached, and one
    that answers 200 with a page that is no JSON. *)
Definition offline : string → dict → outcome aiohttp.ClientResponse :=
  λ _ _, Raised (Exception_ "ClientConnectorError" "Cannot connect to host").

Definition html_page : string → dict → outcome aiohttp.ClientResponse :=
  λ _ _, Returned {| aiohttp.status := 200;
                     aiohttp.json :=
                       Raised (Exception_ "ContentTypeError"
                                 "unexpected mimetype: text/html") |}.

Definition lichess_offline : string → dict → outcome requests.Response :=
  λ _ _, Raised (Exception_ "ConnectionError" "Max retries exceeded").

(** ** The iteration over the export *)

(** What an iteration over the non-blank lines [nb] gives: the objects of
    the first lines, in order; then either the lines are used up and the
    iteration ends, or the next line does not decode and the [except]
    clause decides. *)
Definition yields_of (json_loads : string → outcome pyval)
  (username : string) (nb : list string)
  (st : module_state) (vs : list pyval)
  (r : LichessApiCall.next_result) (st' : module_state) : Prop :=
  Forall2 (λ line v, json_loads line = Returned v) (take (length vs) nb) vs ∧
  ((length vs = length nb ∧ r = LichessApiCall.StopIteration ∧ st' = st) ∨
   (∃ line e, nb !! length vs = Some line ∧ json_loads line = Raised e ∧
              LichessApiCall.except_clause username e st
              = (r, LichessApiCall.Finished, st'))).

Definition non_blank (lines : list string) : list string :=
  filter (λ line, blank line = false) lines.

(** The request [next] makes on a generator that has not started. *)
Definition export_url (a : LichessApiCall.export_args) (st : module_state)
  : string :=
  LichessApiCall_lichess_url st +:+ "games/user/" +:+ LichessApiCall.username a.

Definition export_headers (st : module_state) : dict :=
  <["Accept" := "application/x-ndjson"]> (deref st (LichessApiCall_headers st)).

(** The state in which the body goes on after the request. *)
Definition after_request (a : LichessApiCall.export_args) (st : module_state)
  : module_state :=
  record_request (export_url a st) (export_headers st)
    (setitem (LichessApiCall_headers st) "Accept" "application/x-ndjson" st).

(** The message of the [except] clause. *)
Definition export_error (username : string) (e : pyexc) : string :=
  "Lichess Export By Player API call failed. Username: "
  +:+ username +:+ ". Error: " +:+ str_exc e.

(** ** The headers shared through the class attribute *)

Definition carries_Accept (h : dict) : Prop :=
  h !! "Accept" = Some "application/x-ndjson".

(** The dictionary that [LichessApiCall.headers] names holds the entry. *)
Definition Accept_shared (st : module_state) : Prop :=
  carries_Accept (deref st (LichessApiCall_headers st)).

(** [st'] differs from [st] in the log only. *)
Definition same_but_log (st st' : module_state) : Prop :=
  heap st' = heap st ∧
  WovApiCall_headers st' = WovApiCall_headers st ∧
  WovApiCall_api_url st' = WovApiCall_api_url st ∧
  LichessApiCall_lichess_url st' = LichessApiCall_lichess_url st ∧
  LichessApiCall_headers st' = LichessApiCall_headers st ∧
  sent st' = sent st.

(** What a caller may do with the class. *)
Inductive lichess_call :=
| Call_get_user_performance (username perf_type : string)
| Call_next (g : LichessApiCall.generator).

Definition perform
  (regulated_request :
     string → dict → list (string * pyval) → outcome requests.Response)
  (json_loads : string → outcome pyval)
  (requests_get : string → dict → outcome requests.Response)
  (st : module_state) (c : lichess_call) : module_state :=
  match c with
  | Call_get_user_performance username perf_type =>
      (LichessApiCall.get_user_performance requests_get
         username perf_type st).2
  | Call_next g => (LichessApiCall.next regulated_request json_loads g st).2
  end.

(** ** Samples for the export *)

Definition LF : string := String (Ascii.ascii_of_nat 10) "".

Definition CR : string := String (Ascii.ascii_of_nat 13) "".

(** A decoder for the samples; it agrees with [json.loads] on every line
    of the two bodies below. *)
Definition sample_loads (s : string) : outcome pyval :=
  if decide (s = "1") then Returned (VInt 1)
  else if decide (s = "2") then Returned (VInt 2)
  else if decide (s = "3") then Returned (VInt 3)
  else Raised (Exception_ "JSONDecodeError"
                 "Expecting value: line 1 column 1 (char 0)").

(** Five lines: [1], an empty one, one of three spaces, [2] and [3]. *)
Definition ndjson_body : string :=
  "1" +:+ LF +:+ LF +:+ "   " +:+ CR +:+ LF +:+ "2" +:+ LF +:+ "3" +:+ LF.

(** Three lines, the second of which is no JSON. *)
Definition broken_body : string :=
  "1" +:+ LF +:+ "oops" +:+ LF +:+ "3" +:+ LF.

Definition response_with (body : string) : requests.Response :=
  {| requests.status_code := 200;
     requests.text := body;
     requests.json := sample_loads body |}.

Definition responds (body : string)
  : string → dict → list (string * pyval) → outcome requests.Response :=
  λ _ _ _, Returned (response_with body).

Definition request_fails (e : pyexc)
  : string → dict → list (string * pyval) → outcome requests.Response :=
  λ _ _ _, Raised e.

Definition performance_found : string → dict → outcome requests.Response :=
  λ _ _, Returned {| requests.status_code := 200;
                     requests.text := "1";
                     requests.json := Returned (VInt 1) |}.

(** ** Counting the resumptions of the worker *)

(** The number of [Work] events among [evs]. *)
Fixpoint n_Work (evs : list event) : nat :=
  match evs with
  | [] => 0
  | Work :: evs' => S (n_Work evs')
  | _ :: evs' => n_Work evs'
  end.

(** The resumptions of the worker that resolve the future [i]: three for
    each task still queued up to [i] (the end of the cooldown, the [get],
    the end of the operation), counted from where the worker stands. *)
Definition resumptions_left (i : nat) (s : WovAPICaller) : nat :=
  if decide (i < n_completed (trace s)) then 0
  else
    match worker s with
    | AtGet => 3 * (S i - n_started (trace s)) - 1
    | AtFunc _ _ => 1 + 3 * (S i - n_started (trace s))
    | AtSleep _ => 3 * (S i - n_started (trace s))
    | Dead _ => 0
    end.

(** ** Further vocabulary for the queue *)

(** The time of the newest observation. *)
Definition newest_time (tr : list obs) : nat :=
  match tr with
  | [] => 0
  | o :: _ => obs_time o
  end.

(** The state after [Submit op_C []; Work; Tick], in which the caller has
    cancelled the future it was given while the operation is in progress. *)
Definition state_cancelled : WovAPICaller :=
  {| now := 1;
     queue := {| maxsize := 0; items := []; unfinished_tasks := 1 |};
     worker := AtFunc (op_C, [], 0) 0;
     futures := [Done (Raised (BaseException_ "CancelledError" ""))];
     submitted := [(op_C, [], 0)];
     resumptions := 1;
     trace := [Started 0 0] |}.

(** The state the worker is in after [SystemExit] has left it, with a task
    queued behind. *)
Definition state_exited : WovAPICaller :=
  {| now := 0;
     queue := {| maxsize := 0; items := [(op_C, [], 1)];
                 unfinished_tasks := 2 |};
     worker := Dead (BaseException_ "SystemExit" "0");
     futures := [Pending; Pending];
     submitted := [(op_exit, [], 0); (op_C, [], 1)];
     resumptions := 2;
     trace := [Escaped 0 0; Started 0 0] |}.

(** The state the worker is in after [set_exception] has refused the
    [StopIteration] of the first task, with a task queued behind. *)
Definition state_refused : WovAPICaller :=
  {| now := 0;
     queue := {| maxsize := 0; items := [(op_C, [], 1)];
                 unfinished_tasks := 2 |};
     worker := Dead StopIteration_refused;
     futures := [Pending; Pending];
     submitted := [(op_stop, [], 0); (op_C, [], 1)];
     resumptions := 2;
     trace := [Escaped 0 0; Started 0 0] |}.

(** How long the operation of a task takes. *)
Definition duration (tk : task) : nat :=
  match task_behaviour tk with
  | Completes d _ => d
  | Blocks => 0
  end.

(** An operation is not over before its time: every completion comes at
    least the duration of the operation after the start. *)
Fixpoint durations_respected (sub : list task) (tr : list obs) : Prop :=
  match tr with
  | [] => True
  | Completed fut t :: tr' =>
      match tr' with
      | Started _ t0 :: _ =>
          ∃ tk, sub !! fut = Some tk ∧ t0 + duration tk ≤ t
      | _ => True
      end ∧ durations_respected sub tr'
  | _ :: tr' => durations_respected sub tr'
  end.

(** The earliest time of an observation: the operations of the tasks
    before, one after the other, with a cooldown after each; and the
    operation of the task itself when the observation is its completion. *)
Definition earliest (sub : list task) (o : obs) : nat :=
  match o with
  | Started fut _ | Escaped fut _ =>
      sum_list (duration <$> take fut sub) + fut
  | Completed fut _ =>
      sum_list (duration <$> take (S fut) sub) + fut
  end.

(** Three tasks submitted at once to a worker that has not been resumed
    yet. *)
Definition state_queued : WovAPICaller :=
  {| now := 0;
     queue := {| maxsize := 0;
                 items := [(op_A, [], 0); (op_B, [], 1); (op_C, [], 2)];
                 unfinished_tasks := 3 |};
     worker := AtGet;
     futures := [Pending; Pending; Pending];
     submitted := [(op_A, [], 0); (op_B, [], 1); (op_C, [], 2)];
     resumptions := 0;
     trace := [] |}.

(** ** Any sequence of calls *)

(** What a caller may do with the two classes. *)
Inductive api_call :=
| Call_get_user_by_id (user_id : Z)
| Call_get_user_by_name (username : string)
| Call_get_clan_by_id (clan_id : Z)
| Call_get_clan_by_name (clan_name : string)
| Call_get_clan_members (clan_id : Z)
| Call_get_shop
| Call_lichess (c : lichess_call).

Definition perform_api
  (session_get : string → dict → outcome aiohttp.ClientResponse)
  (regulated_request :
     string → dict → list (string * pyval) → outcome requests.Response)
  (json_loads : string → outcome pyval)
  (requests_get : string → dict → outcome requests.Response)
  (st : module_state) (c : api_call) : module_state :=
  match c with
  | Call_get_user_by_id user_id =>
      (WovApiCall.get_user_by_id session_get user_id st).2
  | Call_get_user_by_name username =>
      (WovApiCall.get_user_by_name session_get username st).2
  | Call_get_clan_by_id clan_id =>
      (WovApiCall.get_clan_by_id session_get clan_id st).2
  | Call_get_clan_by_name clan_name =>
      (WovApiCall.get_clan_by_name session_get clan_name st).2
  | Call_get_clan_members clan_id =>
      (WovApiCall.get_clan_members session_get clan_id st).2
  | Call_get_shop => (WovApiCall.get_shop session_get st).2
  | Call_lichess c => perform regulated_request json_loads requests_get st c
  end.

(** [s.startswith(pre)] *)
Definition starts_with (pre s : string) : Prop := ∃ rest, s = pre +:+ rest.

(** The headers [h] with the entry that [export_by_player] sets. *)
Definition with_Accept (h : dict) : dict :=
  <["Accept" := "application/x-ndjson"]> h.

(** A request that goes to one of the two services with the headers of
    that service: [wov] to Wolvesville; [li], with or without the [Accept]
    entry, to Lichess. *)
Definition to_own_service (wov li : dict) (req : string * dict) : Prop :=
  starts_with "https://api.wolvesville.com/" req.1 ∧ req.2 = wov ∨
  starts_with "https://lichess.org/api/" req.1 ∧
  (req.2 = li ∨ req.2 = with_Accept li).

(** What every call keeps: the two classes have each their dictionary and
    their URL, and the requests sent so far went to the service of their
    headers. *)
Record headers_kept (wov li : dict) (st : module_state) : Prop := {
  kept_distinct : WovApiCall_headers st ≠ LichessApiCall_headers st;
  kept_api_url : WovApiCall_api_url st = "https://api.wolvesville.com/";
  kept_lichess_url : LichessApiCall_lichess_url st = "https://lichess.org/api/";
  kept_wov : heap st !! WovApiCall_headers st = Some wov;
  kept_li : heap st !! LichessApiCall_headers st = Some li ∨
            heap st !! LichessApiCall_headers st = Some (with_Accept li);
  kept_sent : Forall (to_own_service wov li) (sent st)
}.

(** The calls that run the first part of the body of [export_by_player]:
    a [next] on a generator that has not started. *)
Definition starts_export (c : api_call) : bool :=
  match c with
  | Call_lichess (Call_next (LichessApiCall.Created _)) => true
  | _ => false
  end.

(** * The properties *)

(** ** The invariant holds in every reachable state *)

Lemma drop_cons_inv {A} (l : list A) n x r :
  drop n l = x :: r → l !! n = Some x ∧ drop (S n) l = r.
Proof.
  intros H.
  assert (Hx : l !! n = Some x).
  { rewrite <- (Nat.add_0_r n), <- lookup_drop, H. done. }
  split; [done|].
  rewrite (drop_S _ _ _ Hx) in H. by inversion H.
Qed.

(** Starts and completions alternate, so the two counts follow from the
    newest observation. *)
Lemma trace_wf_counts tr :
  trace_wf tr →
  match tr with
  | [] | Completed _ _ :: _ => n_started tr = n_completed tr
  | Started _ _ :: _ | Escaped _ _ :: _ => n_started tr = S (n_completed tr)
  end.
Proof.
  induction tr as [|o tr IH]; [done|].
  destruct o as [fut t|fut t|fut t]; simpl.
  - intros (_ & Hwf & Hhd). specialize (IH Hwf).
    destruct tr as [|[]]; simpl in *; try done; by f_equal.
  - intros (Hwf & Hhd). specialize (IH Hwf).
    destruct tr as [|[]]; simpl in *; try done.
  - intros (Hwf & Hhd). specialize (IH Hwf).
    destruct tr as [|[]]; simpl in *; try done.
Qed.

Lemma Inv_init : Inv init.
Proof.
  split; simpl; try done; try lia.
Qed.

Lemma Inv_tick s : Inv s → Inv (tick s).
Proof.
  intros [? ? ? ? ? ? ? Hw ? ?]. split; simpl; try done.
  unfold worker_ok in *. simpl.
  destruct (worker s); destruct (trace s) as [|[] ?]; try done;
    intuition (try lia).
Qed.

(** [put] never suspends on the queue of a [WovAPICaller]. *)
Lemma put_unbounded item q :
  maxsize q = 0 →
  put item q = Some {| maxsize := 0; items := items q ++ [item];
                       unfinished_tasks := S (unfinished_tasks q) |}.
Proof.
  intros Hm. unfold put, full. rewrite Hm. by rewrite decide_True.
Qed.

Lemma add_to_queue_spec func args s :
  maxsize (queue s) = 0 →
  add_to_queue func args s =
    Some (length (futures s),
          {| now := now s;
             queue := {| maxsize := 0;
                         items := items (queue s)
                                  ++ [(func, args, length (futures s))];
                         unfinished_tasks := S (unfinished_tasks (queue s)) |};
             worker := worker s;
             futures := futures s ++ [Pending];
             submitted := submitted s ++ [(func, args, length (futures s))];
             resumptions := resumptions s; trace := trace s |}).
Proof.
  intros Hm. unfold add_to_queue. by rewrite put_unbounded.
Qed.

Lemma Inv_add_to_queue func args s fut s' :
  Inv s → add_to_queue func args s = Some (fut, s') → Inv s'.
Proof.
  intros [Hm Hi Hu Hn Hl Hs Ht Hw Hd Hp] Hadd.
  rewrite add_to_queue_spec in Hadd by done.
  injection Hadd as <- <-.
  split; simpl; try done.
  - rewrite Hi, drop_app_le by done. done.
  - rewrite length_app. simpl. lia.
  - intros i tk Hlk. apply lookup_app_Some in Hlk as [Hlk|[Hge Hlk]].
    + by apply Hn.
    + apply list_lookup_singleton_Some in Hlk as [Hi0 <-]. simpl. lia.
  - rewrite !length_app. simpl. lia.
  - rewrite length_app. lia.
  - unfold worker_ok in *. simpl.
    destruct (worker s); destruct (trace s) as [|[] ?]; try done.
    + destruct Hw as (? & ? & ? & Hlk). repeat split; try done.
      by apply lookup_app_l_Some.
    + destruct Hw as (tk & d & e0 & Hlk & ?). exists tk, d, e0.
      split; [|done]. by apply lookup_app_l_Some.
  - intros i Hlt. destruct (Hd i Hlt) as (tk & o & Hlk & Hr & Hf).
    exists tk, o. split_and!; [by apply lookup_app_l_Some|done|].
    by apply lookup_app_l_Some.
  - intros i Hge Hlt. rewrite length_app in Hlt. simpl in Hlt.
    destruct (decide (i < length (futures s))) as [Hlt'|Hge'].
    + rewrite lookup_app_l by done. by apply Hp.
    + rewrite lookup_app_r by lia.
      replace (i - length (futures s)) with 0 by lia. done.
Qed.

(** In a state where the worker awaits the operation of [tk], the future of
    [tk] is the oldest unresolved one; it is pending, and one [task_done]
    is owed to the queue. *)
Lemma AtFunc_facts s tk since :
  Inv s → worker s = AtFunc tk since →
  ∃ tr, trace s = Started (task_future tk) since :: tr ∧
        task_future tk = n_completed (trace s) ∧
        submitted s !! task_future tk = Some tk ∧
        futures s !! task_future tk = Some Pending ∧
        since ≤ now s ∧
        unfinished_tasks (queue s) = S (length (items (queue s))).
Proof.
  intros [Hm Hi Hu Hn Hl Hs Ht Hw Hd Hp] Hwk.
  unfold worker_ok in Hw. rewrite Hwk in Hw.
  pose proof (trace_wf_counts _ Ht) as Hc.
  destruct (trace s) as [|[fut t| |] tr] eqn:Htr; try done.
  destruct Hw as (-> & -> & Hle & Hlk).
  simpl in Ht. destruct Ht as (Hfut & _ & _).
  simpl in *. exists tr. split_and!; try done; try lia.
  apply Hp; [lia|]. rewrite Hl. by eapply lookup_lt_Some.
Qed.

(** The resumption that ends a well-behaved operation. *)
Lemma process_queue_resolves s tk since d o r :
  Inv s → worker s = AtFunc tk since →
  task_behaviour tk = Completes d o → resolution tk = Some r →
  since + d ≤ now s →
  process_queue s =
    Some {| now := now s;
            queue := {| maxsize := maxsize (queue s);
                        items := items (queue s);
                        unfinished_tasks := length (items (queue s)) |};
            worker := AtSleep (now s);
            futures := <[task_future tk := Done r]> (futures s);
            submitted := submitted s;
            resumptions := S (resumptions s);
            trace := Completed (task_future tk) (now s) :: trace s |}.
Proof.
  intros HI Hwk Hb Hr Hle.
  destruct (AtFunc_facts _ _ _ HI Hwk) as (tr & Htr & Hf & Hlk & Hpend & _ & Hu).
  unfold process_queue. rewrite Hwk, Hb, decide_True by done.
  unfold resolution, stored in Hr. rewrite Hb in Hr.
  unfold try_except, try_block, set_result, set_exception, task_done.
  rewrite Hu.
  destruct o as [v|e];
    [|destruct (isinstance_Exception e); [|done];
      destruct (is_StopIteration e); [done|]];
    rewrite Hpend; by inversion Hr.
Qed.

(** The resumption in which an exception that is not stored leaves the
    coroutine: the exception of the operation, or the [TypeError] of
    [set_exception]. *)
Lemma process_queue_dies s tk since d e :
  Inv s → worker s = AtFunc tk since →
  task_behaviour tk = Completes d (Raised e) →
  stored e = false →
  since + d ≤ now s →
  process_queue s =
    Some {| now := now s; queue := queue s; worker := Dead (escaping e);
            futures := futures s; submitted := submitted s;
            resumptions := S (resumptions s);
            trace := Escaped (task_future tk) (now s) :: trace s |}.
Proof.
  intros HI Hwk Hb He Hle.
  destruct (AtFunc_facts _ _ _ HI Hwk) as (tr & _ & _ & _ & Hpend & _).
  unfold process_queue. rewrite Hwk, Hb, decide_True by done.
  unfold try_except, try_block, set_exception, escaping.
  unfold stored in He.
  destruct (isinstance_Exception e); [|done].
  destruct (is_StopIteration e); [|done]. by rewrite Hpend.
Qed.

Lemma resolution_cases tk d o :
  task_behaviour tk = Completes d o →
  (∃ r, resolution tk = Some r) ∨
  (∃ e, o = Raised e ∧ stored e = false).
Proof.
  intros Hb. unfold resolution. rewrite Hb.
  destruct o as [v|e]; [eauto|].
  destruct (stored e) eqn:He; eauto.
Qed.

Lemma resolution_Some tk o :
  resolution tk = Some o ↔
  ∃ d, task_behaviour tk = Completes d o ∧
       match o with
       | Returned _ => True
       | Raised e => stored e = true
       end.
Proof.
  unfold resolution. split.
  - destruct (task_behaviour tk) as [d [v|e]|]; try done.
    + intros [= <-]. by exists d.
    + destruct (stored e) eqn:He; [|done].
      intros [= <-]. by exists d.
  - intros (d & -> & Ho). destruct o as [v|e]; [done|]. by rewrite Ho.
Qed.

(** The operations that are well behaved: those that end, with a value
    or with an instance of [Exception] that is no [StopIteration]. *)
Lemma well_behaved_spec tk :
  well_behaved tk ↔
  ∃ d o, task_behaviour tk = Completes d o ∧
         match o with
         | Returned _ => True
         | Raised e =>
             isinstance_Exception e = true ∧ is_StopIteration e = false
         end.
Proof.
  unfold well_behaved, is_Some. split.
  - intros [o Ho]. apply resolution_Some in Ho as (d & Hb & Ho).
    exists d, o. split; [done|]. destruct o as [v|e]; [done|].
    unfold stored in Ho. apply andb_true_iff in Ho as [? Hs].
    split; [done|]. by apply negb_true_iff.
  - intros (d & o & Hb & Ho). exists o. apply resolution_Some.
    exists d. split; [done|]. destruct o as [v|e]; [done|].
    unfold stored. destruct Ho as [-> ->]. done.
Qed.

Lemma Inv_process_queue s s' :
  Inv s → process_queue s = Some s' → Inv s'.
Proof.
  intros HI Hstep. pose proof HI as [Hm Hi Hu Hn Hl Hs Ht Hw Hd Hp].
  destruct (worker s) as [|tk since|since|e] eqn:Hwk.
  - (* the get *)
    unfold process_queue in Hstep. rewrite Hwk in Hstep. unfold get in Hstep.
    destruct (items (queue s)) as [|tk rest] eqn:Hit; [done|].
    injection Hstep as <-.
    symmetry in Hi. apply drop_cons_inv in Hi as [Hlk Hrest].
    unfold worker_ok in Hw. rewrite Hwk in Hw.
    pose proof (trace_wf_counts _ Ht) as Hc.
    split; simpl; try done.
    + simpl in Hu. lia.
    + by eapply lookup_lt_Some.
    + split_and!; [by apply Hn|done|].
      by destruct (trace s) as [|[] ?].
    + unfold worker_ok. simpl. rewrite (Hn _ _ Hlk). done.
  - (* the end of the operation *)
    unfold process_queue in Hstep. rewrite Hwk in Hstep.
    destruct (task_behaviour tk) as [d o|] eqn:Hb; [|done].
    destruct (decide (since + d ≤ now s)) as [Hle|]; [|done].
    destruct (AtFunc_facts _ _ _ HI Hwk)
      as (tr & Htr & Hf & Hlk & Hpend & Hsince & Hunf).
    destruct (resolution_cases _ _ _ Hb) as [[r Hr]|(e & -> & He)].
    + pose proof (process_queue_resolves _ _ _ _ _ _ HI Hwk Hb Hr Hle) as Heq.
      unfold process_queue in Heq. rewrite Hwk, Hb, decide_True in Heq by done.
      rewrite Heq in Hstep. injection Hstep as <-.
      split; simpl; try done.
      * simpl in Hu. lia.
      * by rewrite length_insert.
      * rewrite Htr. split; [by rewrite <- Htr|]. split; [done|lia].
      * intros i Hlt. destruct (decide (i = task_future tk)) as [->|Hne].
        -- exists tk, r. split_and!; try done.
           apply list_lookup_insert_eq. by eapply lookup_lt_Some.
        -- destruct (Hd i) as (tk' & o' & ? & ? & ?); [lia|].
           exists tk', o'. split_and!; try done.
           by rewrite list_lookup_insert_ne.
      * intros i Hge Hlt. rewrite length_insert in Hlt.
        rewrite list_lookup_insert_ne by lia. apply Hp; [lia|done].
    + pose proof (process_queue_dies _ _ _ _ _ HI Hwk Hb He Hle) as Heq.
      unfold process_queue in Heq. rewrite Hwk, Hb, decide_True in Heq by done.
      rewrite Heq in Hstep. injection Hstep as <-.
      split; simpl; try done.
      * rewrite Htr. split; [by rewrite <- Htr|]. split; [done|lia].
      * unfold worker_ok. simpl. by exists tk, d, e.
  - (* the end of the cooldown *)
    unfold process_queue in Hstep. rewrite Hwk in Hstep.
    destruct (decide (since + 1 ≤ now s)) as [Hle|]; [|done].
    injection Hstep as <-.
    split; simpl; try done.
    unfold worker_ok in *. rewrite Hwk in Hw. simpl.
    destruct (trace s) as [|[] ?]; try done. lia.
  - unfold process_queue in Hstep. by rewrite Hwk in Hstep.
Qed.

Lemma Inv_do_event ev s s' : Inv s → do_event ev s = Some s' → Inv s'.
Proof.
  intros HI Hev. destruct ev as [func args| |]; simpl in Hev.
  - destruct (add_to_queue func args s) as [[fut s1]|] eqn:Hadd; [|done].
    injection Hev as <-. by eapply Inv_add_to_queue.
  - injection Hev as <-. by apply Inv_tick.
  - by eapply Inv_process_queue.
Qed.

Lemma Inv_run evs : ∀ s s', Inv s → run evs s = Some s' → Inv s'.
Proof.
  induction evs as [|ev evs IH]; intros s s' HI Hrun; simpl in Hrun.
  - by injection Hrun as <-.
  - destruct (do_event ev s) as [s1|] eqn:Hev; [|done].
    eapply IH; [|done]. by eapply Inv_do_event.
Qed.

Lemma reachable_Inv s : reachable s → Inv s.
Proof. intros [evs Hrun]. eapply Inv_run; [apply Inv_init|done]. Qed.

Lemma run_app evs1 evs2 s :
  run (evs1 ++ evs2) s = run evs1 s ≫= run evs2.
Proof.
  revert s. induction evs1 as [|ev evs1 IH]; intros s; simpl; [done|].
  destruct (do_event ev s); [apply IH|done].
Qed.

Lemma reachable_run evs s s' : reachable s → run evs s = Some s' → reachable s'.
Proof.
  intros [evs0 H0] Hrun. exists (evs0 ++ evs).
  rewrite run_app, H0. done.
Qed.

(** ** What a well-formed trace tells *)

Lemma trace_wf_tail o tr : trace_wf (o :: tr) → trace_wf tr.
Proof. destruct o; simpl; tauto. Qed.

Lemma trace_wf_suffix k tr : trace_wf (k ++ tr) → trace_wf tr.
Proof.
  induction k as [|o k IH]; [done|].
  intros H. apply IH. by eapply trace_wf_tail.
Qed.

(** Time does not run backwards in a trace. *)
Lemma trace_wf_times o tr :
  trace_wf (o :: tr) → ∀ o', o' ∈ tr → obs_time o' ≤ obs_time o.
Proof.
  revert o. induction tr as [|o1 tr IH]; intros o Hwf o' Hin.
  - by apply elem_of_nil in Hin.
  - assert (Hstep : obs_time o1 ≤ obs_time o).
    { destruct o, o1; simpl in Hwf; simpl; try tauto; lia. }
    apply elem_of_cons in Hin as [->|Hin]; [done|].
    etrans; [|exact Hstep]. apply IH; [|done]. by eapply trace_wf_tail.
Qed.

Lemma elem_of_completions fut t tr :
  (fut, t) ∈ completions tr ↔ Completed fut t ∈ tr.
Proof.
  induction tr as [|o tr IH]; simpl.
  - split; intros H; by apply elem_of_nil in H.
  - destruct o as [g c|g c|g c]; rewrite ?elem_of_cons, IH.
    + split; [by right|]. by intros [H|H].
    + split; (intros [H|H]; [left; by inversion H|by right]).
    + split; [by right|]. by intros [H|H].
Qed.

(** Before an operation starts nothing is executing; while it runs, it is
    the only one. *)
Lemma trace_wf_executing tr :
  trace_wf tr →
  executing tr = match tr with
                 | Started fut _ :: _ => [fut]
                 | _ => []
                 end.
Proof.
  induction tr as [|o tr IH]; [done|].
  destruct o as [fut t|fut t|fut t]; simpl.
  - intros (_ & Hwf & Hhd). rewrite (IH Hwf).
    by destruct tr as [|[] ?].
  - intros (Hwf & Hhd). rewrite (IH Hwf).
    destruct tr as [|[] ?]; try done. destruct Hhd as [-> _].
    by rewrite filter_cons_False by (intros H; by apply H).
  - intros (Hwf & Hhd). rewrite (IH Hwf).
    destruct tr as [|[] ?]; try done. destruct Hhd as [-> _].
    by rewrite filter_cons_False by (intros H; by apply H).
Qed.

(** Futures are completed in the order of their numbers, from 0. *)
Lemma trace_wf_completions tr :
  trace_wf tr →
  (completions tr).*1 = reverse (seq 0 (n_completed tr)).
Proof.
  induction tr as [|o tr IH]; [done|].
  intros Hwf. pose proof (trace_wf_tail _ _ Hwf) as Hwf'.
  specialize (IH Hwf').
  destruct o as [fut t|fut t|fut t]; cbn [completions n_completed]; try done.
  rewrite fmap_cons, IH, seq_S, reverse_snoc. simpl. f_equal.
  pose proof (trace_wf_counts _ Hwf') as Hc.
  destruct Hwf as (_ & Hhd).
  destruct tr as [|[fut0 t0| |] tr]; try done.
  destruct Hhd as [<- _]. simpl in Hwf', Hc.
  destruct Hwf' as (-> & _ & _). simpl. lia.
Qed.

Lemma length_completions tr : length (completions tr) = n_completed tr.
Proof. induction tr as [|[] tr IH]; simpl; by f_equal. Qed.

(** Consecutive completions are a cooldown apart. *)
Lemma trace_wf_spaced tr : trace_wf tr → spaced (completions tr).*2.
Proof.
  induction tr as [|o tr IH]; [done|].
  intros Hwf. pose proof (trace_wf_tail _ _ Hwf) as Hwf'.
  specialize (IH Hwf').
  destruct o as [fut t|fut t|fut t]; simpl; try done.
  split; [|done].
  destruct (completions tr) as [|[g c] cs] eqn:Hcs; [done|]. simpl.
  assert (Hin : Completed g c ∈ tr).
  { apply elem_of_completions. rewrite Hcs. apply elem_of_cons. by left. }
  simpl in Hwf. destruct Hwf as (_ & Hhd).
  destruct tr as [|[fut0 t0| |] tr]; try done. destruct Hhd as [_ Ht0].
  apply elem_of_cons in Hin as [?|Hin]; [done|].
  simpl in Hwf'. destruct Hwf' as (_ & Hwf'' & Hhd').
  destruct tr as [|[|g1 c1|] tr]; try done;
    try (by apply elem_of_nil in Hin).
  apply elem_of_cons in Hin as [Heq|Hin].
  - injection Heq as -> ->. lia.
  - pose proof (trace_wf_times _ _ Hwf'' _ Hin) as Hle. simpl in Hle. lia.
Qed.

Lemma trace_wf_cooldown tr : trace_wf tr → cooldown_respected tr.
Proof.
  intros Hwf k fut t tr' -> g c Hin.
  apply trace_wf_suffix in Hwf. apply elem_of_completions in Hin.
  simpl in Hwf. destruct Hwf as (_ & Hwf & Hhd).
  destruct tr' as [|[|g1 c1|] tr']; try done;
    try (by apply elem_of_nil in Hin).
  apply elem_of_cons in Hin as [Heq|Hin].
  - injection Heq as -> ->. lia.
  - pose proof (trace_wf_times _ _ Hwf _ Hin) as Hle. simpl in Hle. lia.
Qed.

Lemma run_drain_events n : ∀ s, run (drain_events n s) s = Some (drain n s).
Proof.
  induction n as [|n IH]; intros s; simpl; [done|].
  destruct (process_queue s) as [s'|] eqn:Hpq; simpl; rewrite ?Hpq; apply IH.
Qed.

Lemma drain_events_no_submit n : ∀ s,
  Forall (λ ev, ev = Tick ∨ ev = Work) (drain_events n s).
Proof.
  induction n as [|n IH]; intros s; simpl; [constructor|].
  destruct (process_queue s); constructor; auto.
Qed.

Lemma well_behaved_cost tk : well_behaved tk → 4 ≤ cost tk.
Proof.
  intros [r Hr]. unfold resolution in Hr. unfold cost.
  destruct (task_behaviour tk); [lia|done].
Qed.

Lemma process_queue_submitted s s' :
  process_queue s = Some s' → submitted s' = submitted s.
Proof.
  unfold process_queue. intros H.
  repeat (case_match; simplify_eq); by simplify_eq.
Qed.

Lemma drain_one_debt i s :
  Inv s → well_behaved_upto i s → i < length (futures s) →
  debt i (drain 1 s) ≤ debt i s - 1.
Proof.
  intros HI Hwb Hi. pose proof HI as [Hm Hit Hu Hn Hl Hs Ht Hw Hd Hp].
  unfold debt at 2.
  destruct (decide (i < n_completed (trace s))) as [Hdone|Hnot].
  { (* already resolved: it stays so *)
    assert (Hmono : n_completed (trace s) ≤ n_completed (trace (drain 1 s))).
    { simpl. destruct (process_queue s) as [s'|] eqn:Hpq; [|done].
      unfold process_queue in Hpq.
      repeat (case_match; simplify_eq); simpl; lia. }
    unfold debt. rewrite decide_True by lia. lia. }
  pose proof (trace_wf_counts _ Ht) as Hc.
  unfold worker_ok in Hw. unfold worker_debt. simpl.
  destruct (worker s) as [|tk since|since|e] eqn:Hwk.
  - (* at the get *)
    assert (Hsc : n_started (trace s) = n_completed (trace s)).
    { by destruct (trace s) as [|[] ?]. }
    assert (is_Some (submitted s !! n_started (trace s))) as [tk Htk].
    { apply lookup_lt_is_Some. lia. }
    pose proof (drop_S _ _ _ Htk) as Hdrop. rewrite <- Hit in Hdrop.
    remember (drop (S (n_started (trace s))) (submitted s)) as rest.
    assert (Hwbt : well_behaved tk) by (eapply Hwb; [|done]; lia).
    pose proof (well_behaved_cost _ Hwbt) as Hcost.
    unfold process_queue, get. rewrite Hwk, Hdrop.
    unfold debt, worker_debt.
    cbn [trace worker queue items now n_completed n_started].
    rewrite decide_False by done.
    replace (S i - n_started (trace s)) with (S (i - n_started (trace s)))
      by lia.
    replace (S i - S (n_started (trace s))) with (i - n_started (trace s))
      by lia.
    rewrite firstn_cons, fmap_cons. cbn [sum_list_with].
    generalize (sum_list (cost <$> take (i - n_started (trace s)) rest)).
    intros R. unfold cost in *.
    unfold id. destruct (task_behaviour tk) as [d o|]; lia.
  - (* awaiting the operation *)
    destruct (AtFunc_facts _ _ _ HI Hwk)
      as (tr & Htr & Hf & Hlk & Hpend & Hsince & Hunf).
    assert (Hwbt : well_behaved tk) by (eapply Hwb; [|done]; lia).
    destruct Hwbt as [r Hr].
    destruct (task_behaviour tk) as [d o|] eqn:Hb;
      [|by (unfold resolution in Hr; rewrite Hb in Hr)].
    destruct (decide (since + d ≤ now s)) as [Hle|Hgt].
    + rewrite (process_queue_resolves _ _ _ _ _ _ HI Hwk Hb Hr Hle).
      unfold debt. simpl. case_decide; [lia|].
      unfold worker_debt. simpl. lia.
    + assert (Hpq : process_queue s = None).
      { unfold process_queue. by rewrite Hwk, Hb, decide_False. }
      rewrite Hpq. unfold debt. simpl. rewrite decide_False by done.
      unfold worker_debt. simpl. rewrite Hwk, Hb. lia.
  - (* in the cooldown *)
    destruct (decide (since + 1 ≤ now s)) as [Hle|Hgt].
    + unfold process_queue. rewrite Hwk, decide_True by done.
      unfold debt. simpl. rewrite decide_False by done.
      unfold worker_debt. simpl. lia.
    + assert (Hpq : process_queue s = None).
      { unfold process_queue. by rewrite Hwk, decide_False. }
      rewrite Hpq. unfold debt. simpl. rewrite decide_False by done.
      unfold worker_debt. simpl. rewrite Hwk. lia.
  - (* dead: some earlier operation was not well behaved *)
    exfalso.
    destruct (trace s) as [|[fut t|fut t|fut t] tr] eqn:Htr; try done.
    destruct Hw as (tk & d & e0 & Hlk & Hb & He & _).
    simpl in Ht. destruct Ht as (Hwf & Hhd).
    destruct tr as [|[fut0 t0| |] tr]; try done. destruct Hhd as [-> _].
    simpl in Hwf. destruct Hwf as (-> & _). simpl in Hc, Hnot.
    assert (Hwbt : well_behaved tk) by (eapply Hwb; [|done]; lia).
    destruct Hwbt as [r Hr]. unfold resolution in Hr.
    rewrite Hb, He in Hr. done.
Qed.

Lemma drain_S n s : drain (S n) s = drain n (drain 1 s).
Proof. simpl. by destruct (process_queue s). Qed.

Lemma Inv_drain n : ∀ s, Inv s → Inv (drain n s).
Proof.
  induction n as [|n IH]; intros s HI; simpl; [done|].
  destruct (process_queue s) as [s'|] eqn:Hpq; apply IH.
  - by eapply Inv_process_queue.
  - by apply Inv_tick.
Qed.

Lemma drain_submitted n : ∀ s, submitted (drain n s) = submitted s.
Proof.
  induction n as [|n IH]; intros s; simpl; [done|].
  destruct (process_queue s) as [s'|] eqn:Hpq; rewrite IH; [|done].
  by apply process_queue_submitted.
Qed.

Lemma debt_zero i s :
  Inv s → well_behaved_upto i s → i < length (futures s) →
  debt i s = 0 → i < n_completed (trace s).
Proof.
  intros HI Hwb Hi Hz. pose proof HI as [Hm Hit Hu Hn Hl Hs Ht Hw Hd Hp].
  unfold debt in Hz.
  destruct (decide (i < n_completed (trace s))) as [|Hnot]; [done|exfalso].
  pose proof (trace_wf_counts _ Ht) as Hc.
  unfold worker_ok in Hw. unfold worker_debt in Hz.
  destruct (worker s) as [|tk since|since|e] eqn:Hwk.
  - assert (Hsc : n_started (trace s) = n_completed (trace s)).
    { by destruct (trace s) as [|[] ?]. }
    assert (is_Some (submitted s !! n_started (trace s))) as [tk Htk].
    { apply lookup_lt_is_Some. lia. }
    pose proof (drop_S _ _ _ Htk) as Hdrop. rewrite <- Hit in Hdrop.
    assert (Hwbt : well_behaved tk) by (eapply Hwb; [|done]; lia).
    pose proof (well_behaved_cost _ Hwbt) as Hcost.
    rewrite Hdrop in Hz.
    replace (S i - n_started (trace s)) with (S (i - n_started (trace s)))
      in Hz by lia.
    rewrite firstn_cons, fmap_cons in Hz. cbn [sum_list_with] in Hz.
    unfold id in Hz. lia.
  - destruct (AtFunc_facts _ _ _ HI Hwk)
      as (tr & Htr & Hf & Hlk & Hpend & Hsince & Hunf).
    assert (Hwbt : well_behaved tk) by (eapply Hwb; [|done]; lia).
    destruct Hwbt as [r Hr]. unfold resolution in Hr.
    destruct (task_behaviour tk); [lia|done].
  - lia.
  - destruct (trace s) as [|[fut t|fut t|fut t] tr] eqn:Htr; try done.
    destruct Hw as (tk & d & e0 & Hlk & Hb & He & _).
    simpl in Ht. destruct Ht as (Hwf & Hhd).
    destruct tr as [|[fut0 t0| |] tr]; try done. destruct Hhd as [-> _].
    simpl in Hwf. destruct Hwf as (-> & _). simpl in Hc, Hnot.
    assert (Hwbt : well_behaved tk) by (eapply Hwb; [|done]; lia).
    destruct Hwbt as [r Hr]. unfold resolution in Hr.
    rewrite Hb, He in Hr. done.
Qed.

Lemma length_futures_drain n : ∀ s,
  Inv s → length (futures (drain n s)) = length (futures s).
Proof.
  intros s HI. pose proof (Inv_drain n s HI) as HI'.
  by rewrite (inv_length _ HI'), (inv_length _ HI), drain_submitted.
Qed.

(** After [debt i s] rounds the future [i] is resolved. *)
Lemma drain_completes i n : ∀ s,
  Inv s → well_behaved_upto i s → i < length (futures s) →
  debt i s ≤ n → i < n_completed (trace (drain n s)).
Proof.
  induction n as [|n IH]; intros s HI Hwb Hi Hle.
  - simpl. apply debt_zero; try done. lia.
  - rewrite drain_S. apply IH.
    + by apply Inv_drain.
    + unfold well_behaved_upto. by rewrite drain_submitted.
    + by rewrite length_futures_drain.
    + pose proof (drain_one_debt i s HI Hwb Hi). lia.
Qed.

(** A resolved future holds what its own operation gave. *)
Lemma resolved_own s i o :
  Inv s → futures s !! i = Some (Done o) →
  i < n_completed (trace s) ∧
  ∃ tk, submitted s !! i = Some tk ∧ resolution tk = Some o.
Proof.
  intros HI Hf.
  destruct (decide (i < n_completed (trace s))) as [Hlt|Hge].
  - split; [done|].
    destruct (inv_done _ HI i Hlt) as (tk & o' & Hlk & Hr & Hf').
    exists tk. split; [done|]. congruence.
  - rewrite (inv_pending _ HI i) in Hf; [done|lia|].
    by eapply lookup_lt_Some.
Qed.

Lemma do_event_grows ev s s' :
  do_event ev s = Some s' →
  submitted s `prefix_of` submitted s' ∧
  n_completed (trace s) ≤ n_completed (trace s').
Proof.
  destruct ev as [func args| |]; simpl; intros H.
  - unfold add_to_queue in H. destruct (put _ _); simplify_eq/=.
    split; [by apply prefix_app_r|done].
  - by simplify_eq/=.
  - rewrite (process_queue_submitted _ _ H). split; [done|].
    unfold process_queue in H.
    repeat (case_match; simplify_eq); simpl; lia.
Qed.

Lemma run_grows evs : ∀ s s',
  run evs s = Some s' →
  submitted s `prefix_of` submitted s' ∧
  n_completed (trace s) ≤ n_completed (trace s').
Proof.
  induction evs as [|ev evs IH]; intros s s' H; simpl in H.
  - by simplify_eq.
  - destruct (do_event ev s) as [s1|] eqn:Hev; [|done].
    destruct (do_event_grows _ _ _ Hev) as [Hp1 Hc1].
    destruct (IH _ _ H) as [Hp2 Hc2].
    split; [by etrans|lia].
Qed.

(** Once resolved, a future keeps its content. *)
Lemma resolved_stable evs s s' i o :
  Inv s → run evs s = Some s' →
  futures s !! i = Some (Done o) → futures s' !! i = Some (Done o).
Proof.
  intros HI Hrun Hf.
  destruct (resolved_own _ _ _ HI Hf) as (Hlt & tk & Hlk & Hr).
  destruct (run_grows _ _ _ Hrun) as [Hpre Hc].
  pose proof (Inv_run _ _ _ HI Hrun) as HI'.
  destruct (inv_done _ HI' i) as (tk' & o' & Hlk' & Hr' & Hf'); [lia|].
  rewrite (prefix_lookup_Some _ _ _ _ Hlk Hpre) in Hlk'.
  congruence.
Qed.

Lemma halted_do_event ev s s' :
  halted s → do_event ev s = Some s' →
  worker s' = worker s ∧ trace s' = trace s ∧
  futures s `prefix_of` futures s' ∧
  items (queue s) `prefix_of` items (queue s').
Proof.
  intros Hh. destruct ev as [func args| |]; simpl; intros H.
  - unfold add_to_queue, put in H. destruct (full _); simplify_eq/=.
    split_and!; try done; by apply prefix_app_r.
  - by simplify_eq/=.
  - unfold halted in Hh. unfold process_queue in H.
    destruct (worker s); try done. by rewrite Hh in H.
Qed.

Lemma halted_run evs : ∀ s s',
  halted s → run evs s = Some s' →
  worker s' = worker s ∧ trace s' = trace s ∧
  futures s `prefix_of` futures s' ∧
  items (queue s) `prefix_of` items (queue s').
Proof.
  induction evs as [|ev evs IH]; intros s s' Hh H; simpl in H.
  - by simplify_eq.
  - destruct (do_event ev s) as [s1|] eqn:Hev; [|done].
    destruct (halted_do_event _ _ _ Hh Hev) as (Hw1 & Ht1 & Hf1 & Hi1).
    assert (Hh1 : halted s1) by (unfold halted in *; by rewrite Hw1).
    destruct (IH _ _ Hh1 H) as (Hw2 & Ht2 & Hf2 & Hi2).
    split_and!; try congruence; by etrans.
Qed.

(** ** The properties of the queue *)

(** C4. A call of [add_to_queue], in any reachable state and with any
    operation and arguments, returns at once: the [put] does not suspend
    (the queue is unbounded), the task is appended at the tail of the
    queue, and the future returned is a new one (no future of a task
    submitted before) that is still pending. The call resumes no worker and
    takes no time, and leaves the futures handed out before as they were. *)
Theorem add_to_queue_returns_fresh_pending_future func args s :
  reachable s →
  ∃ s', add_to_queue func args s = Some (length (futures s), s') ∧
        items (queue s')
        = items (queue s) ++ [(func, args, length (futures s))] ∧
        futures s !! length (futures s) = None ∧
        (∀ tk, tk ∈ submitted s → task_future tk ≠ length (futures s)) ∧
        futures s' !! length (futures s) = Some Pending ∧
        (∀ i, i < length (futures s) → futures s' !! i = futures s !! i) ∧
        now s' = now s ∧ worker s' = worker s ∧
        resumptions s' = resumptions s ∧ trace s' = trace s.
Proof.
  intros Hr. pose proof (reachable_Inv _ Hr) as HI.
  eexists. split; [apply add_to_queue_spec, (inv_maxsize _ HI)|].
  simpl. split_and!; try done.
  - by apply lookup_ge_None.
  - intros tk Hin. apply list_elem_of_lookup in Hin as [i Hlk].
    rewrite (inv_names _ HI _ _ Hlk), (inv_length _ HI).
    apply lookup_lt_Some in Hlk. lia.
  - rewrite lookup_app_r by done. by rewrite Nat.sub_diag.
  - intros i Hlt. by rewrite lookup_app_l.
Qed.

Lemma add_to_queue_returns_fresh_pending_future_witness :
  ∃ s', add_to_queue op_B [VInt 7] (tick init) = Some (0, s') ∧
        items (queue s') = [(op_B, [VInt 7], 0)] ∧
        futures (tick init) !! 0 = None ∧
        (∀ tk, tk ∈ submitted (tick init) → task_future tk ≠ 0) ∧
        futures s' !! 0 = Some Pending ∧
        (∀ i, i < 0 → futures s' !! i = futures (tick init) !! i) ∧
        now s' = 1 ∧ worker s' = AtGet ∧
        resumptions s' = 0 ∧ trace s' = [].
Proof.
  apply (add_to_queue_returns_fresh_pending_future op_B [VInt 7] (tick init)).
  exists [Tick]. reflexivity.
Defined.

(** C5. At every point of every execution at most one submitted operation
    is executing: whenever the worker starts the operation of a task, no
    operation started earlier is still executing, and the operation in
    progress, if any, is the one the worker awaits. *)
Theorem one_operation_at_a_time s :
  reachable s →
  (∀ k tr, trace s = k ++ tr → length (executing tr) ≤ 1) ∧
  (∀ k fut t tr, trace s = k ++ Started fut t :: tr → executing tr = []) ∧
  executing (trace s) = match worker s with
                        | AtFunc tk _ => [task_future tk]
                        | _ => []
                        end.
Proof.
  intros Hr. pose proof (reachable_Inv _ Hr) as HI.
  pose proof (inv_trace _ HI) as Hwf.
  split_and!.
  - intros k tr Heq. rewrite Heq in Hwf. apply trace_wf_suffix in Hwf.
    rewrite (trace_wf_executing _ Hwf). destruct tr as [|[] ?]; simpl; lia.
  - intros k fut t tr Heq. rewrite Heq in Hwf. apply trace_wf_suffix in Hwf.
    simpl in Hwf. destruct Hwf as (_ & Hwf & Hhd).
    rewrite (trace_wf_executing _ Hwf). by destruct tr as [|[] ?].
  - rewrite (trace_wf_executing _ Hwf).
    pose proof (inv_worker _ HI) as Hw. unfold worker_ok in Hw.
    destruct (worker s); destruct (trace s) as [|[] ?]; try done.
    by destruct Hw as (-> & _).
Qed.

Lemma one_operation_at_a_time_witness :
  ∃ s, run [Submit op_A []; Submit op_C []; Work; Tick] init = Some s ∧
       (∀ k tr, trace s = k ++ tr → length (executing tr) ≤ 1) ∧
       (∀ k fut t tr, trace s = k ++ Started fut t :: tr → executing tr = []) ∧
       executing (trace s) = match worker s with
                             | AtFunc tk _ => [task_future tk]
                             | _ => []
                             end.
Proof.
  eexists. split; [reflexivity|].
  apply one_operation_at_a_time.
  exists [Submit op_A []; Submit op_C []; Work; Tick]. reflexivity.
Defined.

Lemma later_0 s : later 0 s = s.
Proof. by destruct s. Qed.

Lemma idle_process_queue s :
  worker s = AtGet → items (queue s) = [] → process_queue s = None.
Proof. intros Hw Hq. unfold process_queue, get. by rewrite Hw, Hq. Qed.

Lemma idle_run evs : ∀ s s',
  worker s = AtGet → items (queue s) = [] →
  Forall (λ ev, ¬ is_Submit ev) evs → run evs s = Some s' →
  evs = replicate (length evs) Tick ∧ s' = later (length evs) s.
Proof.
  induction evs as [|ev evs IH]; intros s s' Hw Hq Hns Hrun; simpl in Hrun.
  - simplify_eq. by rewrite later_0.
  - apply Forall_cons in Hns as [Hev Hns].
    destruct ev as [func args| |]; simpl in *.
    + by destruct Hev.
    + destruct (IH (tick s) s') as [Heq ->]; try done.
      split; [by f_equal|]. unfold later, tick. simpl. f_equal. lia.
    + by rewrite idle_process_queue in Hrun.
Qed.

Lemma run_ticks n : ∀ s, run (replicate n Tick) s = Some (later n s).
Proof.
  induction n as [|n IH]; intros s; simpl.
  - by rewrite later_0.
  - rewrite IH. unfold later, tick. simpl. do 2 f_equal. lia.
Qed.

(** C6. While the queue is empty the worker stays suspended in
    [queue.get()]: it cannot be resumed, so every execution without a
    submission consists of the passing of time only and leaves the number of
    resumptions of the worker, the trace and the futures as they were; time
    may pass for ever in this way. The first submission makes the worker
    resumable, and its resumption starts the submitted operation. With no
    task ever submitted the worker is never resumed and never dies. *)
Theorem empty_queue_suspends_worker s :
  reachable s → worker s = AtGet → items (queue s) = [] →
  process_queue s = None ∧
  (∀ evs s', Forall (λ ev, ¬ is_Submit ev) evs → run evs s = Some s' →
     evs = replicate (length evs) Tick ∧ s' = later (length evs) s) ∧
  (∀ n, run (replicate n Tick) s = Some (later n s)) ∧
  (∀ n func args, ∃ s1 s2,
     run (replicate n Tick ++ [Submit func args]) s = Some s1 ∧
     process_queue s1 = Some s2 ∧
     worker s2 = AtFunc (func, args, length (futures s)) (n + now s) ∧
     resumptions s2 = S (resumptions s)) ∧
  (∀ evs s', Forall (λ ev, ¬ is_Submit ev) evs → run evs init = Some s' →
     resumptions s' = 0 ∧ worker s' = AtGet ∧ trace s' = []).
Proof.
  intros Hr Hw Hq. pose proof (reachable_Inv _ Hr) as HI. split_and!.
  - by apply idle_process_queue.
  - intros evs s'. by apply idle_run.
  - intros n. apply run_ticks.
  - intros n func args.
    eexists _, _. rewrite run_app, run_ticks. simpl.
    rewrite add_to_queue_spec by apply (inv_maxsize _ HI). simpl.
    split; [done|]. unfold process_queue, get. simpl. rewrite Hw, Hq. simpl.
    done.
  - intros evs s' Hns Hrun.
    destruct (idle_run evs init s') as [_ ->]; done.
Qed.

Lemma empty_queue_suspends_worker_witness :
  process_queue init = None ∧
  (∀ evs s', Forall (λ ev, ¬ is_Submit ev) evs → run evs init = Some s' →
     evs = replicate (length evs) Tick ∧ s' = later (length evs) init) ∧
  (∀ n, run (replicate n Tick) init = Some (later n init)) ∧
  (∀ n func args, ∃ s1 s2,
     run (replicate n Tick ++ [Submit func args]) init = Some s1 ∧
     process_queue s1 = Some s2 ∧
     worker s2 = AtFunc (func, args, 0) (n + 0) ∧
     resumptions s2 = 1) ∧
  (∀ evs s', Forall (λ ev, ¬ is_Submit ev) evs → run evs init = Some s' →
     resumptions s' = 0 ∧ worker s' = AtGet ∧ trace s' = []).
Proof.
  apply (empty_queue_suspends_worker init); [by exists []|done|done].
Defined.

(** ** Every fair execution resolves the futures *)

(** While the future [i] is unresolved the worker can be resumed, at the
    latest when the operation in progress, or the cooldown, is over. *)
Lemma worker_resumable i s :
  Inv s → well_behaved_upto i s → i < length (futures s) →
  i < n_completed (trace s) ∨ ∃ k, is_Some (process_queue (later k s)).
Proof.
  intros HI Hwb Hi. pose proof HI as [Hm Hit Hu Hn Hl Hs Ht Hw Hd Hp].
  destruct (decide (i < n_completed (trace s))) as [|Hnot]; [by left|right].
  pose proof (trace_wf_counts _ Ht) as Hc. unfold worker_ok in Hw.
  destruct (worker s) as [|tk since|since|e] eqn:Hwk.
  - exists 0. rewrite later_0.
    assert (Hsc : n_started (trace s) = n_completed (trace s)).
    { by destruct (trace s) as [|[] ?]. }
    assert (is_Some (submitted s !! n_started (trace s))) as [tk Htk].
    { apply lookup_lt_is_Some. lia. }
    pose proof (drop_S _ _ _ Htk) as Hdrop. rewrite <- Hit in Hdrop.
    unfold process_queue, get. by rewrite Hwk, Hdrop.
  - destruct (AtFunc_facts _ _ _ HI Hwk)
      as (tr & Htr & Hf & Hlk & Hpend & Hsince & Hunf).
    assert (Hwbt : well_behaved tk) by (eapply Hwb; [|done]; lia).
    destruct Hwbt as [r Hr]. pose proof Hr as Hr'.
    unfold resolution, stored in Hr'.
    destruct (task_behaviour tk) as [d o|] eqn:Hb; [|done].
    exists (since + d - now s).
    unfold process_queue. simpl. rewrite Hwk, Hb.
    rewrite decide_True by lia.
    unfold try_except, try_block, set_result, set_exception, task_done.
    simpl. rewrite Hunf.
    destruct o as [v|e];
      [|destruct (isinstance_Exception e); [|done];
        destruct (is_StopIteration e); [done|]];
      by rewrite Hpend.
  - exists (since + 1 - now s). unfold process_queue. simpl. rewrite Hwk.
    by rewrite decide_True by lia.
  - exfalso.
    destruct (trace s) as [|[fut t|fut t|fut t] tr] eqn:Htr; try done.
    destruct Hw as (tk & d & e0 & Hlk & Hb & He & _).
    simpl in Ht. destruct Ht as (Hwf & Hhd).
    destruct tr as [|[fut0 t0| |] tr]; try done. destruct Hhd as [-> _].
    simpl in Hwf. destruct Hwf as (-> & _). simpl in Hc, Hnot.
    assert (Hwbt : well_behaved tk) by (eapply Hwb; [|done]; lia).
    destruct Hwbt as [r Hr]. unfold resolution in Hr.
    rewrite Hb, He in Hr. done.
Qed.

(** Each resumption of the worker brings the resolution of [i] one step
    nearer; submissions and the passing of time do not take it away. *)
Lemma do_event_resumptions_left i ev s s' :
  Inv s → well_behaved_upto i s → i < length (futures s) →
  do_event ev s = Some s' →
  resumptions_left i s' ≤ resumptions_left i s - n_Work [ev].
Proof.
  intros HI Hwb Hi Hev. pose proof HI as [Hm Hit Hu Hn Hl Hs Ht Hw Hd Hp].
  unfold resumptions_left at 2.
  destruct (decide (i < n_completed (trace s))) as [Hdone|Hnot].
  { destruct (do_event_grows _ _ _ Hev) as [_ Hmono].
    unfold resumptions_left. rewrite decide_True by lia. lia. }
  destruct ev as [func args| |]; simpl in Hev.
  - rewrite add_to_queue_spec in Hev by done. simplify_eq/=.
    unfold resumptions_left. simpl. rewrite decide_False by done. lia.
  - simplify_eq/=. unfold resumptions_left. simpl.
    rewrite decide_False by done. lia.
  - pose proof (trace_wf_counts _ Ht) as Hc. unfold worker_ok in Hw.
    destruct (worker s) as [|tk since|since|e] eqn:Hwk.
    + unfold process_queue, get in Hev. rewrite Hwk in Hev.
      destruct (items (queue s)) as [|tk rest]; [done|]. simplify_eq/=.
      assert (Hsc : n_started (trace s) = n_completed (trace s)).
      { by destruct (trace s) as [|[] ?]. }
      unfold resumptions_left. simpl. rewrite decide_False by done. lia.
    + destruct (AtFunc_facts _ _ _ HI Hwk)
        as (tr & Htr & Hf & Hlk & Hpend & Hsince & Hunf).
      assert (Hwbt : well_behaved tk) by (eapply Hwb; [|done]; lia).
      destruct Hwbt as [r Hr].
      assert (∃ d o, task_behaviour tk = Completes d o) as (d & o & Hb).
      { apply resolution_Some in Hr as (d & Hb & _). eauto. }
      destruct (decide (since + d ≤ now s)) as [Hle|Hgt].
      * rewrite (process_queue_resolves _ _ _ _ _ _ HI Hwk Hb Hr Hle) in Hev.
        simplify_eq/=. unfold resumptions_left. simpl.
        case_decide; lia.
      * unfold process_queue in Hev.
        by rewrite Hwk, Hb, decide_False in Hev.
    + unfold process_queue in Hev. rewrite Hwk in Hev.
      case_decide; [|done]. simplify_eq/=.
      unfold resumptions_left. simpl. rewrite decide_False by done. lia.
    + unfold process_queue in Hev. by rewrite Hwk in Hev.
Qed.

Lemma resumptions_left_0 i s :
  Inv s → well_behaved_upto i s → i < length (futures s) →
  resumptions_left i s = 0 → i < n_completed (trace s).
Proof.
  intros HI Hwb Hi Hz. pose proof HI as [Hm Hit Hu Hn Hl Hs Ht Hw Hd Hp].
  unfold resumptions_left in Hz.
  destruct (decide (i < n_completed (trace s))) as [|Hnot]; [done|exfalso].
  pose proof (trace_wf_counts _ Ht) as Hc. unfold worker_ok in Hw.
  destruct (worker s) as [|tk since|since|e] eqn:Hwk.
  - destruct (trace s) as [|[] ?]; simpl in *; try done; lia.
  - lia.
  - destruct (trace s) as [|[] ?]; simpl in *; try done; lia.
  - destruct (trace s) as [|[fut t|fut t|fut t] tr] eqn:Htr; try done.
    destruct Hw as (tk & d & e0 & Hlk & Hb & He & _).
    simpl in Ht. destruct Ht as (Hwf & Hhd).
    destruct tr as [|[fut0 t0| |] tr]; try done. destruct Hhd as [-> _].
    simpl in Hwf. destruct Hwf as (-> & _). simpl in Hc, Hnot.
    assert (Hwbt : well_behaved tk) by (eapply Hwb; [|done]; lia).
    destruct Hwbt as [r Hr]. unfold resolution in Hr.
    rewrite Hb, He in Hr. done.
Qed.

Lemma well_behaved_upto_prefix i s s' :
  i < length (submitted s) → submitted s `prefix_of` submitted s' →
  well_behaved_upto i s → well_behaved_upto i s'.
Proof.
  intros Hi [k Hk] Hwb j tk Hj Hlk. apply (Hwb j tk Hj).
  rewrite Hk, lookup_app_l in Hlk by lia. done.
Qed.

(** In every execution, whatever is submitted meanwhile and however long
    the worker is kept waiting, the future [i] is resolved by the time the
    worker has been resumed [resumptions_left i s] times. *)
Lemma run_resolves i evs : ∀ s s',
  Inv s → well_behaved_upto i s → i < length (futures s) →
  run evs s = Some s' →
  resumptions_left i s ≤ n_Work evs → i < n_completed (trace s').
Proof.
  induction evs as [|ev evs IH]; intros s s' HI Hwb Hi Hrun Hle;
    simpl in Hrun.
  - simplify_eq. apply resumptions_left_0; try done. simpl in Hle. lia.
  - destruct (do_event ev s) as [s1|] eqn:Hev; [|done].
    pose proof (do_event_resumptions_left i ev s s1 HI Hwb Hi Hev) as Hstep.
    destruct (do_event_grows _ _ _ Hev) as [Hpre _].
    pose proof (Inv_do_event _ _ _ HI Hev) as HI1.
    assert (Hi1 : i < length (futures s1)).
    { rewrite (inv_length _ HI1). rewrite (inv_length _ HI) in Hi.
      apply prefix_length in Hpre. lia. }
    apply (IH s1 s'); try done.
    + eapply well_behaved_upto_prefix; [|done..].
      by rewrite <- (inv_length _ HI).
    + destruct ev; simpl in *; lia.
Qed.





Lemma futures_of_first_submitted (l : list task) n :
  (∀ i tk, l !! i = Some tk → task_future tk = i) → n ≤ length l →
  task_future <$> take n l = seq 0 n.
Proof.
  intros Hn Hle. apply list_eq. intros i.
  rewrite list_lookup_fmap.
  destruct (decide (i < n)) as [Hlt|Hge].
  - rewrite lookup_take_lt by done. rewrite lookup_seq_lt by done.
    destruct (l !! i) as [tk|] eqn:Hlk.
    + simpl. f_equal. by apply Hn.
    + apply lookup_ge_None in Hlk. lia.
  - rewrite lookup_take_ge by lia. rewrite lookup_seq_ge by lia. done.
Qed.

Lemma trace_wf_newest_completion fut c tr :
  trace_wf (Completed fut c :: tr) → fut = n_completed tr.
Proof.
  intros Hwf. pose proof (trace_wf_completions _ Hwf) as H.
  cbn [completions n_completed] in H.
  rewrite fmap_cons, seq_S, reverse_snoc in H. simpl in H. congruence.
Qed.

Lemma n_completed_le_started s :
  Inv s → n_completed (trace s) ≤ length (submitted s).
Proof.
  intros HI. pose proof (inv_started _ HI).
  pose proof (trace_wf_counts _ (inv_trace _ HI)).
  destruct (trace s) as [|[] ?]; simpl in *; lia.
Qed.

Lemma elem_of_completed_futures tr i :
  trace_wf tr → i ∈ (completions tr).*1 ↔ i < n_completed tr.
Proof.
  intros Hwf. rewrite (trace_wf_completions _ Hwf), elem_of_reverse.
  rewrite elem_of_seq. lia.
Qed.

(** C1 (amended). In every reachable state the futures completed so far,
    in the order of their completion, are those of the first tasks
    submitted, in the order of their submission; consecutive completions are
    at least one time unit apart, and no operation starts within one time
    unit of an earlier completion. After a completion, whether the future
    holds a result or a captured exception, the worker is in its cooldown,
    or past it with the time unit elapsed. A task whose operation, like
    those submitted before it, ends with a value or with an exception that
    is stored (an instance of [Exception] other than a [StopIteration],
    see [well_behaved_spec]) is completed: by the worker let run on its
    own; and in every execution, as the worker can be resumed while the
    task is not completed, and the task is completed by the time the worker
    has been resumed [resumptions_left] times. *)
Theorem completions_in_submission_order s :
  reachable s →
  reverse (completions (trace s)).*1
  = task_future <$> take (n_completed (trace s)) (submitted s) ∧
  n_completed (trace s) ≤ length (submitted s) ∧
  spaced (completions (trace s)).*2 ∧
  cooldown_respected (trace s) ∧
  (∀ fut c tr, trace s = Completed fut c :: tr →
     (∃ o, futures s !! fut = Some (Done o)) ∧
     (worker s = AtSleep c ∨ worker s = AtGet ∧ c + 1 ≤ now s)) ∧
  (∀ i, i < length (submitted s) → well_behaved_upto i s →
     (∃ n, run (drain_events n s) s = Some (drain n s) ∧
           i < n_completed (trace (drain n s))) ∧
     (i < n_completed (trace s) ∨
      ∃ k, is_Some (process_queue (later k s))) ∧
     (∀ evs s', run evs s = Some s' →
        resumptions_left i s ≤ n_Work evs → i < n_completed (trace s'))).
Proof.
  intros Hr. pose proof (reachable_Inv _ Hr) as HI.
  pose proof (inv_trace _ HI) as Hwf.
  pose proof (n_completed_le_started _ HI) as Hle.
  split_and!; try done.
  - rewrite (trace_wf_completions _ Hwf), reverse_involutive.
    symmetry. apply futures_of_first_submitted; [apply HI|done].
  - by apply trace_wf_spaced.
  - by apply trace_wf_cooldown.
  - intros fut c tr Htr. split.
    + rewrite Htr in Hwf. apply trace_wf_newest_completion in Hwf.
      destruct (inv_done _ HI fut) as (tk & o & _ & _ & Hf).
      { rewrite Htr. simpl. lia. }
      by exists o.
    + pose proof (inv_worker _ HI) as Hw. unfold worker_ok in Hw.
      rewrite Htr in Hw. destruct (worker s); try done.
      * by right.
      * left. by destruct Hw as [-> _].
  - intros i Hi Hwb. rewrite <- (inv_length _ HI) in Hi. split_and!.
    + exists (debt i s). split; [apply run_drain_events|].
      by apply drain_completes.
    + by apply worker_resumable.
    + intros evs s' Hrun Hres. by eapply run_resolves.
Qed.

Lemma completions_in_submission_order_witness :
  run scenario_ABC init = Some state_ABC ∧
  reverse (completions (trace state_ABC)).*1
  = task_future <$> take (n_completed (trace state_ABC)) (submitted state_ABC) ∧
  n_completed (trace state_ABC) ≤ length (submitted state_ABC) ∧
  spaced (completions (trace state_ABC)).*2 ∧
  cooldown_respected (trace state_ABC) ∧
  (∀ fut c tr, trace state_ABC = Completed fut c :: tr →
     (∃ o, futures state_ABC !! fut = Some (Done o)) ∧
     (worker state_ABC = AtSleep c ∨
      worker state_ABC = AtGet ∧ c + 1 ≤ now state_ABC)) ∧
  (∀ i, i < length (submitted state_ABC) → well_behaved_upto i state_ABC →
     (∃ n, run (drain_events n state_ABC) state_ABC
           = Some (drain n state_ABC) ∧
           i < n_completed (trace (drain n state_ABC))) ∧
     (i < n_completed (trace state_ABC) ∨
      ∃ k, is_Some (process_queue (later k state_ABC))) ∧
     (∀ evs s', run evs state_ABC = Some s' →
        resumptions_left i state_ABC ≤ n_Work evs →
        i < n_completed (trace s'))).
Proof.
  split; [by vm_compute|].
  apply (completions_in_submission_order state_ABC).
  exists scenario_ABC. by vm_compute.
Defined.

(** The claim C1 as it stands fails when an operation does not end with a
    value or an exception that is stored. Interrupted by [KeyboardInterrupt], the first
    operation ends with no completion and no cooldown: the worker is dead
    and completes nothing ever after. And behind an operation that never
    ends nothing is ever completed either. *)
Lemma not_every_task_is_completed :
  (∃ s, run [Submit op_interrupted []; Submit op_C []; Work; Tick; Work] init
        = Some s ∧
        worker s = Dead (BaseException_ "KeyboardInterrupt" "") ∧
        trace s = [Escaped 0 1; Started 0 0] ∧
        ∀ evs s', run evs s = Some s' →
          completions (trace s') = [] ∧
          worker s' = Dead (BaseException_ "KeyboardInterrupt" "")) ∧
  (∃ s, run [Submit op_forever []; Submit op_C []; Work] init = Some s ∧
        ∀ evs s', run evs s = Some s' → completions (trace s') = []).
Proof.
  split; eexists; (split; [reflexivity|]).
  - split_and!; try reflexivity.
    intros evs s' Hrun.
    apply halted_run in Hrun as (Hw & Ht & _); [|done].
    by rewrite Hw, Ht.
  - intros evs s' Hrun.
    apply halted_run in Hrun as (Hw & Ht & _); [|done].
    by rewrite Ht.
Qed.

(** C3 (amended). However the submissions are interleaved with the worker,
    no future is completed twice; a future is resolved exactly when its
    task has been completed, and it then holds what the operation submitted
    with it ended with, a value or an exception that is stored (an
    instance of [Exception] other than a [StopIteration], see
    [well_behaved_spec]); the other futures are pending. A resolved future
    keeps its content for ever. And a future whose operation, like those
    submitted before it, ends with a value or with an exception that is
    stored is resolved with what that operation ended with: by the worker
    let run on its own; and in every execution, as the worker can be
    resumed while the future is pending, and the future is resolved by the
    time the worker has been resumed [resumptions_left] times. *)
Theorem each_future_resolved_once_with_own_outcome s :
  reachable s →
  NoDup (completions (trace s)).*1 ∧
  (∀ i o, futures s !! i = Some (Done o) ↔
     i ∈ (completions (trace s)).*1 ∧
     ∃ tk d, submitted s !! i = Some tk ∧ task_future tk = i ∧
             task_behaviour tk = Completes d o ∧ resolution tk = Some o) ∧
  (∀ i, futures s !! i = Some Pending ↔
     i < length (submitted s) ∧ i ∉ (completions (trace s)).*1) ∧
  (∀ evs s' i o, run evs s = Some s' →
     futures s !! i = Some (Done o) → futures s' !! i = Some (Done o)) ∧
  (∀ i tk, submitted s !! i = Some tk → well_behaved_upto i s →
     ∃ o, resolution tk = Some o ∧
          (∃ n, run (drain_events n s) s = Some (drain n s) ∧
                futures (drain n s) !! i = Some (Done o)) ∧
          (futures s !! i = Some (Done o) ∨
           ∃ k, is_Some (process_queue (later k s))) ∧
          (∀ evs s', run evs s = Some s' →
             resumptions_left i s ≤ n_Work evs →
             futures s' !! i = Some (Done o))).
Proof.
  intros Hr. pose proof (reachable_Inv _ Hr) as HI.
  pose proof (inv_trace _ HI) as Hwf.
  split_and!.
  - rewrite (trace_wf_completions _ Hwf), reverse_Permutation.
    apply NoDup_seq.
  - intros i o. rewrite (elem_of_completed_futures _ _ Hwf). split.
    + intros Hf. destruct (resolved_own _ _ _ HI Hf) as (Hlt & tk & Hlk & Hres).
      split; [done|]. pose proof Hres as Hres'.
      apply resolution_Some in Hres' as (d & Hb & _).
      exists tk, d. split_and!; try done. by apply (inv_names _ HI).
    + intros (Hlt & tk & d & Hlk & _ & _ & Hres).
      destruct (inv_done _ HI i Hlt) as (tk' & o' & Hlk' & Hres' & Hf).
      congruence.
  - intros i. rewrite (elem_of_completed_futures _ _ Hwf).
    rewrite <- (inv_length _ HI). split.
    + intros Hf. split; [by eapply lookup_lt_Some|]. intros Hlt.
      destruct (inv_done _ HI i Hlt) as (tk' & o' & _ & _ & Hf').
      congruence.
    + intros [Hlt Hnc]. apply (inv_pending _ HI); [lia|done].
  - intros evs s' i o Hrun Hf. by eapply resolved_stable.
  - intros i tk Hlk Hwb.
    assert (Hi : i < length (futures s)).
    { rewrite (inv_length _ HI). by eapply lookup_lt_Some. }
    pose proof (drain_completes i (debt i s) s HI Hwb Hi (le_n _)) as Hc.
    destruct (inv_done _ (Inv_drain (debt i s) s HI) i Hc)
      as (tk' & o & Hlk' & Hres & Hf).
    rewrite drain_submitted in Hlk'.
    assert (tk' = tk) as -> by congruence.
    exists o. split_and!; [done| | |].
    + exists (debt i s). split; [apply run_drain_events|done].
    + destruct (worker_resumable i s HI Hwb Hi) as [Hlt|Hk]; [|by right].
      left. destruct (inv_done _ HI i Hlt) as (tk' & o' & Hlk2 & Hres2 & Hf2).
      congruence.
    + intros evs s' Hrun Hle.
      pose proof (run_resolves i evs s s' HI Hwb Hi Hrun Hle) as Hlt.
      destruct (inv_done _ (Inv_run _ _ _ HI Hrun) i Hlt)
        as (tk' & o' & Hlk2 & Hres2 & Hf2).
      destruct (run_grows _ _ _ Hrun) as [Hpre _].
      rewrite (prefix_lookup_Some _ _ _ _ Hlk Hpre) in Hlk2.
      congruence.
Qed.

Lemma each_future_resolved_once_with_own_outcome_witness :
  run scenario_ABC init = Some state_ABC ∧
  NoDup (completions (trace state_ABC)).*1 ∧
  (∀ i o, futures state_ABC !! i = Some (Done o) ↔
     i ∈ (completions (trace state_ABC)).*1 ∧
     ∃ tk d, submitted state_ABC !! i = Some tk ∧ task_future tk = i ∧
             task_behaviour tk = Completes d o ∧ resolution tk = Some o) ∧
  (∀ i, futures state_ABC !! i = Some Pending ↔
     i < length (submitted state_ABC) ∧
     i ∉ (completions (trace state_ABC)).*1) ∧
  (∀ evs s' i o, run evs state_ABC = Some s' →
     futures state_ABC !! i = Some (Done o) →
     futures s' !! i = Some (Done o)) ∧
  (∀ i tk, submitted state_ABC !! i = Some tk →
     well_behaved_upto i state_ABC →
     ∃ o, resolution tk = Some o ∧
          (∃ n, run (drain_events n state_ABC) state_ABC
                = Some (drain n state_ABC) ∧
                futures (drain n state_ABC) !! i = Some (Done o)) ∧
          (futures state_ABC !! i = Some (Done o) ∨
           ∃ k, is_Some (process_queue (later k state_ABC))) ∧
          (∀ evs s', run evs state_ABC = Some s' →
             resumptions_left i state_ABC ≤ n_Work evs →
             futures s' !! i = Some (Done o))).
Proof.
  split; [by vm_compute|].
  apply (each_future_resolved_once_with_own_outcome state_ABC).
  exists scenario_ABC. by vm_compute.
Defined.

(** The claim C3 as it stands fails when an operation does not end with a
    value or an exception that is stored: behind an operation that never ends, and
    behind one that is cancelled, no future is ever resolved. *)
Lemma not_every_future_is_resolved :
  (∃ s, run [Submit op_forever []; Submit op_C []; Work] init = Some s ∧
        ∀ evs s', run evs s = Some s' →
          futures s' !! 0 = Some Pending ∧ futures s' !! 1 = Some Pending) ∧
  (∃ s, run [Submit op_cancelled []; Submit op_C []; Work; Work] init
        = Some s ∧
        worker s = Dead (BaseException_ "CancelledError" "") ∧
        ∀ evs s', run evs s = Some s' →
          futures s' !! 0 = Some Pending ∧ futures s' !! 1 = Some Pending).
Proof.
  split; eexists; (split; [reflexivity|]).
  - intros evs s' Hrun.
    apply halted_run in Hrun as (_ & _ & Hf & _); [|done].
    split; (eapply prefix_lookup_Some; [|exact Hf]); reflexivity.
  - split; [reflexivity|]. intros evs s' Hrun.
    apply halted_run in Hrun as (_ & _ & Hf & _); [|done].
    split; (eapply prefix_lookup_Some; [|exact Hf]); reflexivity.
Qed.

(** ** Strings *)

(** [splitlines] and [strip] on the samples, as Python has them:
    ["1\n\n   \r\n2\n3\n".splitlines()] is [['1', '', '   ', '2', '3']]. *)
Example splitlines_samples :
  splitlines ndjson_body = ["1"; ""; "   "; "2"; "3"] ∧
  splitlines "" = [] ∧
  splitlines LF = [""] ∧
  splitlines ("a" +:+ LF +:+ CR +:+ "b") = ["a"; ""; "b"] ∧
  splitlines "no newline" = ["no newline"].
Proof. by vm_compute. Qed.

Example strip_samples :
  strip "  a b  " = "a b" ∧ strip ("   " +:+ CR) = "" ∧
  truthy (strip "   ") = false ∧ truthy (strip " 1 ") = true.
Proof. by vm_compute. Qed.

Lemma string_app_assoc (a b c : string) : (a +:+ b) +:+ c = a +:+ b +:+ c.
Proof.
  induction a as [|x a IH]; [done|].
  change (String x ((a +:+ b) +:+ c) = String x (a +:+ b +:+ c)).
  by f_equal.
Qed.

Lemma string_app_nil_r (a : string) : a +:+ "" = a.
Proof.
  induction a as [|x a IH]; [done|].
  change (String x (a +:+ "") = String x a). by f_equal.
Qed.

Lemma contains_self k : contains k k.
Proof. exists "", "". simpl. by rewrite string_app_nil_r. Qed.

Lemma contains_here k post : contains k (k +:+ post).
Proof. by exists "", post. Qed.

Lemma contains_after p k s : contains k s → contains k (p +:+ s).
Proof.
  intros (pre & post & ->). exists (p +:+ pre), post.
  by rewrite string_app_assoc.
Qed.

Ltac solve_contains :=
  first [ apply contains_self
        | apply contains_here
        | apply contains_after; solve_contains ].

Lemma forallb_lstrip_chars s :
  forallb isspace (lstrip_chars s) = forallb isspace s.
Proof.
  induction s as [|c s IH]; [done|]. simpl.
  destruct (isspace c) eqn:Hc; simpl; [done|]. by rewrite Hc.
Qed.

Lemma lstrip_chars_nil s : forallb isspace s = true → lstrip_chars s = [].
Proof.
  induction s as [|c s IH]; [done|]. simpl.
  destruct (isspace c); [done|]. discriminate.
Qed.

Lemma forallb_rev {A} (f : A → bool) l : forallb f (rev l) = forallb f l.
Proof.
  induction l as [|x l IH]; [done|]. simpl.
  rewrite forallb_app, IH. simpl. destruct (f x), (forallb f l); done.
Qed.

Lemma forallb_strip_chars s :
  forallb isspace (strip_chars s) = forallb isspace s.
Proof.
  unfold strip_chars.
  by rewrite forallb_rev, forallb_lstrip_chars, forallb_rev,
    forallb_lstrip_chars.
Qed.

Lemma strip_chars_nil s : strip_chars s = [] ↔ forallb isspace s = true.
Proof.
  split.
  - intros H. rewrite <- (forallb_strip_chars s), H. done.
  - intros H. unfold strip_chars. by rewrite (lstrip_chars_nil s).
Qed.

Lemma blank_false line :
  blank line = false ↔
  ∃ c, c ∈ String.list_ascii_of_string line ∧ isspace c = false.
Proof.
  unfold blank. induction (String.list_ascii_of_string line) as [|c l IH].
  - split; [done|]. intros (c & Hin & _). by apply elem_of_nil in Hin.
  - simpl. destruct (isspace c) eqn:Hc; simpl.
    + rewrite IH. split.
      * intros (c' & Hin & Hc'). exists c'. split; [by right|done].
      * intros (c' & Hin & Hc'). exists c'. split; [|done].
        apply elem_of_cons in Hin as [->|Hin]; [congruence|done].
    + split; [|done]. intros _. exists c. split; [by left|done].
Qed.

(** [if line.strip():] is taken exactly for the lines that are not blank. *)
Lemma truthy_strip line : truthy (strip line) = negb (blank line).
Proof.
  unfold strip, blank.
  destruct (strip_chars (String.list_ascii_of_string line)) as [|c l] eqn:Hs.
  - apply strip_chars_nil in Hs. by rewrite Hs.
  - simpl. destruct (forallb isspace _) eqn:Hb; [|done].
    apply strip_chars_nil in Hb. congruence.
Qed.

(** ** The API wrappers *)

Ltac solve_status_contract got :=
  unfold status_contract, aiohttp_got, requests_got;
  destruct got as [response|e]; simpl; [|done];
  case_decide; simpl; [done|];
  split; [done|]; eexists; split; [done|];
  split; [solve_contains|];
  repeat (apply Forall_cons; split; [solve_contains|]); by apply Forall_nil.

(** C7 (amended). Each method of [WovApiCall], and
    [LichessApiCall.get_user_performance], makes its request with the
    headers of its class, and then: with a response of status 200 it
    returns what [response.json()] gives (the parsed payload, or the
    exception decoding raises) and logs nothing; with a response of any
    other status it logs one error message that contains the status code
    and the identifying key ([get_shop] has no key) and returns [None]; the
    exception of a request that fails is not logged and reaches the
    caller. *)
Theorem wrappers_return_payload_or_log_status
  (session_get : string → dict → outcome aiohttp.ClientResponse)
  (requests_get : string → dict → outcome requests.Response)
  (st : module_state) :
  let wov := deref st (WovApiCall_headers st) in
  let api_url := WovApiCall_api_url st in
  let li := deref st (LichessApiCall_headers st) in
  let lichess_url := LichessApiCall_lichess_url st in
  (∀ user_id,
     status_contract
       (aiohttp_got (session_get (api_url +:+ "players/" +:+ pretty user_id) wov))
       [pretty user_id] st
       (WovApiCall.get_user_by_id session_get user_id st)) ∧
  (∀ username,
     status_contract
       (aiohttp_got
          (session_get (api_url +:+ "players/search?username=" +:+ username) wov))
       [username] st
       (WovApiCall.get_user_by_name session_get username st)) ∧
  (∀ clan_id,
     status_contract
       (aiohttp_got
          (session_get (api_url +:+ "clans/" +:+ pretty clan_id +:+ "/info") wov))
       [pretty clan_id] st
       (WovApiCall.get_clan_by_id session_get clan_id st)) ∧
  (∀ clan_name,
     status_contract
       (aiohttp_got
          (session_get (api_url +:+ "clans/search?name=" +:+ clan_name) wov))
       [clan_name] st
       (WovApiCall.get_clan_by_name session_get clan_name st)) ∧
  (∀ clan_id,
     status_contract
       (aiohttp_got
          (session_get (api_url +:+ "clans/" +:+ pretty clan_id +:+ "/members")
             wov))
       [pretty clan_id] st
       (WovApiCall.get_clan_members session_get clan_id st)) ∧
  status_contract
    (aiohttp_got (session_get (api_url +:+ "shop/activeOffers") wov))
    [] st
    (WovApiCall.get_shop session_get st) ∧
  (∀ username perf_type,
     status_contract
       (requests_got
          (requests_get
             (lichess_url +:+ "user/" +:+ username +:+ "/perf/" +:+ perf_type)
             li))
       [username] st
       (LichessApiCall.get_user_performance requests_get username perf_type st)).
Proof.
  intros wov api_url li lichess_url. subst wov api_url li lichess_url.
  split_and!.
  - intros user_id. unfold WovApiCall.get_user_by_id.
    solve_status_contract (session_get
      (WovApiCall_api_url st +:+ "players/" +:+ pretty user_id)
      (deref st (WovApiCall_headers st))).
  - intros username. unfold WovApiCall.get_user_by_name.
    solve_status_contract (session_get
      (WovApiCall_api_url st +:+ "players/search?username=" +:+ username)
      (deref st (WovApiCall_headers st))).
  - intros clan_id. unfold WovApiCall.get_clan_by_id.
    solve_status_contract (session_get
      (WovApiCall_api_url st +:+ "clans/" +:+ pretty clan_id +:+ "/info")
      (deref st (WovApiCall_headers st))).
  - intros clan_name. unfold WovApiCall.get_clan_by_name.
    solve_status_contract (session_get
      (WovApiCall_api_url st +:+ "clans/search?name=" +:+ clan_name)
      (deref st (WovApiCall_headers st))).
  - intros clan_id. unfold WovApiCall.get_clan_members.
    solve_status_contract (session_get
      (WovApiCall_api_url st +:+ "clans/" +:+ pretty clan_id +:+ "/members")
      (deref st (WovApiCall_headers st))).
  - unfold WovApiCall.get_shop.
    solve_status_contract (session_get
      (WovApiCall_api_url st +:+ "shop/activeOffers")
      (deref st (WovApiCall_headers st))).
  - intros username perf_type. unfold LichessApiCall.get_user_performance.
    solve_status_contract (requests_get
      (LichessApiCall_lichess_url st +:+ "user/" +:+ username
       +:+ "/perf/" +:+ perf_type)
      (deref st (LichessApiCall_headers st))).
Qed.

(** The claim C7 as it stands fails: a request that gets no response, and
    a response of status 200 that does not decode, give the caller an
    exception, with nothing logged and nothing returned. *)
Lemma failed_request_reaches_caller :
  (WovApiCall.get_user_by_id offline 42 (imported "w" "l")).1
  = Raised (Exception_ "ClientConnectorError" "Cannot connect to host") ∧
  log (WovApiCall.get_user_by_id offline 42 (imported "w" "l")).2 = [] ∧
  (WovApiCall.get_shop html_page (imported "w" "l")).1
  = Raised (Exception_ "ContentTypeError" "unexpected mimetype: text/html") ∧
  log (WovApiCall.get_shop html_page (imported "w" "l")).2 = [] ∧
  (LichessApiCall.get_user_performance lichess_offline "ann" "blitz"
     (imported "w" "l")).1
  = Raised (Exception_ "ConnectionError" "Max retries exceeded") ∧
  log (LichessApiCall.get_user_performance lichess_offline "ann" "blitz"
         (imported "w" "l")).2 = [].
Proof. by vm_compute. Qed.

(** ** The export generator *)

Section ExportByPlayer.

Context (regulated_request :
  string → dict → list (string * pyval) → outcome requests.Response).

Context (json_loads : string → outcome pyval).

Let next := LichessApiCall.next regulated_request json_loads.

Let iterate := LichessApiCall.iterate regulated_request json_loads.

Let for_loop := LichessApiCall.for_loop json_loads.

Lemma except_clause_Finished username e st :
  (LichessApiCall.except_clause username e st).1.2 = LichessApiCall.Finished.
Proof.
  unfold LichessApiCall.except_clause. by destruct (isinstance_Exception e).
Qed.

Lemma iterate_Suspended username lines : ∀ n st,
  length lines < n →
  ∃ vs r st',
    iterate n (LichessApiCall.Suspended username lines) st = (vs, Some r, st') ∧
    yields_of json_loads username (non_blank lines) st vs r st'.
Proof.
  induction lines as [|line rest IH]; intros n st Hn.
  - destruct n as [|n]; [simpl in Hn; lia|].
    exists [], LichessApiCall.StopIteration, st. split; [done|].
    split; [constructor|]. by left.
  - destruct n as [|n]; [simpl in Hn; lia|]. simpl in Hn.
    unfold non_blank. rewrite filter_cons.
    pose proof (truthy_strip line) as Hts.
    destruct (blank line) eqn:Hb; simpl in Hts.
    + (* a blank line: the loop goes on *)
      rewrite decide_False by done.
      destruct (IH (S n) st) as (vs & r & st' & Hit & Hy); [lia|].
      exists vs, r, st'. split; [|done].
      rewrite <- Hit. subst iterate. simpl. by rewrite Hts.
    + rewrite decide_True by done.
      destruct (json_loads line) as [v|e] eqn:Hj.
      * (* a line that decodes: one object *)
        destruct (IH n st) as (vs & r & st' & Hit & [Hf Hend]); [lia|].
        exists (v :: vs), r, st'. split.
        -- subst iterate. simpl. rewrite Hts, Hj.
           fold (LichessApiCall.iterate regulated_request json_loads).
           by rewrite Hit.
        -- split; [by constructor|]. simpl.
           destruct Hend as [(Hl & -> & ->)|(l & e & Hlk & Hje & Hex)].
           ++ left. split; [by f_equal|done].
           ++ right. by exists l, e.
      * (* a line that does not decode: the except clause *)
        pose proof (except_clause_Finished username e st) as Hfin.
        destruct (LichessApiCall.except_clause username e st)
          as [[r g] st'] eqn:Hex. simpl in Hfin. subst g.
        exists [], r, st'. split.
        -- subst iterate. simpl. rewrite Hts, Hj, Hex.
           unfold LichessApiCall.except_clause in Hex.
           destruct (isinstance_Exception e); by simplify_eq.
        -- split; [constructor|]. right. by exists line, e.
Qed.

Lemma iterate_S n g st :
  iterate (S n) g st =
  match next g st with
  | (LichessApiCall.Yielded v, g', st') =>
      let '(vs, r, st'') := iterate n g' st' in (v :: vs, r, st'')
  | (r, _, st') => ([], Some r, st')
  end.
Proof. done. Qed.

Lemma iterate_next n g1 st1 g2 st2 :
  next g1 st1 = next g2 st2 →
  iterate (S n) g1 st1 = iterate (S n) g2 st2.
Proof. subst iterate next. intros H. simpl. by rewrite H. Qed.

Lemma deref_setitem st a key value :
  deref (setitem a key value st) a = <[key := value]> (deref st a).
Proof. unfold deref, setitem. simpl. by rewrite lookup_insert_eq. Qed.

Lemma next_Created a st :
  next (LichessApiCall.Created a) st =
  match regulated_request (export_url a st) (export_headers st)
          (LichessApiCall.params a) with
  | Raised e =>
      LichessApiCall.except_clause (LichessApiCall.username a) e
        (after_request a st)
  | Returned resp =>
      for_loop (LichessApiCall.username a) (splitlines (requests.text resp))
        (after_request a st)
  end.
Proof.
  subst next for_loop. unfold LichessApiCall.next. simpl.
  change (deref (record_request _ _ ?s) ?x) with (deref s x).
  rewrite !deref_setitem. done.
Qed.

Lemma except_clause_Exception username e st :
  isinstance_Exception e = true →
  LichessApiCall.except_clause username e st
  = (LichessApiCall.StopIteration, LichessApiCall.Finished,
     logger_error (export_error username e) st).
Proof. intros He. unfold LichessApiCall.except_clause. by rewrite He. Qed.

Lemma except_clause_Propagated username e st e' :
  (LichessApiCall.except_clause username e st).1.1
  = LichessApiCall.Propagated e' →
  e' = e ∧ isinstance_Exception e = false.
Proof.
  unfold LichessApiCall.except_clause.
  destruct (isinstance_Exception e); simpl; [done|]. by intros [= ->].
Qed.

Lemma for_loop_Propagated username lines st e :
  (for_loop username lines st).1.1 = LichessApiCall.Propagated e →
  isinstance_Exception e = false.
Proof.
  subst for_loop. induction lines as [|line rest IH]; simpl; [done|].
  destruct (truthy (strip line)); [|done].
  destruct (json_loads line) as [v|e0]; simpl; [done|].
  intros H. by apply except_clause_Propagated in H as [-> ?].
Qed.

Lemma next_Propagated g st e :
  (next g st).1.1 = LichessApiCall.Propagated e →
  isinstance_Exception e = false.
Proof.
  destruct g as [a|username lines|].
  - rewrite next_Created.
    destruct (regulated_request _ _ _) as [resp|e0].
    + apply for_loop_Propagated.
    + intros H. by apply except_clause_Propagated in H as [-> ?].
  - apply for_loop_Propagated.
  - done.
Qed.

(** The whole iteration over a generator that has not started, when the
    request gives a response. *)
Lemma iterate_export_response a st resp n :
  regulated_request (export_url a st) (export_headers st)
    (LichessApiCall.params a) = Returned resp →
  length (splitlines (requests.text resp)) < n →
  ∃ vs r st',
    iterate n (LichessApiCall.export_by_player a st).1
      (LichessApiCall.export_by_player a st).2 = (vs, Some r, st') ∧
    yields_of json_loads (LichessApiCall.username a)
      (non_blank (splitlines (requests.text resp)))
      (after_request a st) vs r st'.
Proof.
  intros Hreq Hn. destruct n as [|n]; [lia|].
  destruct (iterate_Suspended (LichessApiCall.username a)
              (splitlines (requests.text resp)) (S n) (after_request a st) Hn)
    as (vs & r & st' & Hit & Hy).
  exists vs, r, st'. split; [|done]. rewrite <- Hit.
  unfold LichessApiCall.export_by_player. cbn [fst snd].
  apply iterate_next. rewrite next_Created, Hreq. done.
Qed.

(** C10 (amended). When the request gives a response, iterating over
    [export_by_player] yields the objects [json.loads] gives for the lines
    of the body that are not blank, one per line and in the order of the
    lines, up to the first such line that [json.loads] refuses (none of the
    lines after it is read); when every such line decodes, the objects are
    exactly one per non-blank line. Blank lines yield nothing. *)
Theorem export_yields_one_object_per_non_blank_line a st resp n :
  regulated_request (export_url a st) (export_headers st)
    (LichessApiCall.params a) = Returned resp →
  length (splitlines (requests.text resp)) < n →
  ∃ vs r st',
    iterate n (LichessApiCall.export_by_player a st).1
      (LichessApiCall.export_by_player a st).2 = (vs, Some r, st') ∧
    Forall2 (λ line v, json_loads line = Returned v)
      (take (length vs) (non_blank (splitlines (requests.text resp)))) vs ∧
    (length vs = length (non_blank (splitlines (requests.text resp))) ∧
     r = LichessApiCall.StopIteration
     ∨
     ∃ line e,
       non_blank (splitlines (requests.text resp)) !! length vs = Some line ∧
       json_loads line = Raised e) ∧
    (Forall (λ line, ∃ v, json_loads line = Returned v)
       (non_blank (splitlines (requests.text resp))) →
     Forall2 (λ line v, json_loads line = Returned v)
       (non_blank (splitlines (requests.text resp))) vs ∧
     r = LichessApiCall.StopIteration) ∧
    (∀ line, line ∈ non_blank (splitlines (requests.text resp)) ↔
             line ∈ splitlines (requests.text resp) ∧
             ∃ c, c ∈ String.list_ascii_of_string line ∧ isspace c = false).
Proof.
  intros Hreq Hn.
  destruct (iterate_export_response a st resp n Hreq Hn)
    as (vs & r & st' & Hit & Hf & Hend).
  exists vs, r, st'. split_and!; try done.
  - destruct Hend as [(Hl & -> & _)|(line & e & Hlk & Hj & _)].
    + by left.
    + right. by exists line, e.
  - intros Hall.
    destruct Hend as [(Hl & -> & _)|(line & e & Hlk & Hj & _)].
    + split; [|done]. rewrite Hl in Hf. by rewrite take_ge in Hf.
    + rewrite Forall_lookup in Hall. destruct (Hall _ _ Hlk) as [v Hv].
      congruence.
  - intros line. unfold non_blank.
    rewrite list_elem_of_filter, blank_false. tauto.
Qed.

Lemma iterate_Propagated n : ∀ g st vs e st',
  iterate n g st = (vs, Some (LichessApiCall.Propagated e), st') →
  isinstance_Exception e = false.
Proof.
  subst iterate. induction n as [|n IH]; intros g st vs e st'; simpl; [done|].
  pose proof (next_Propagated g st) as Hp. subst next.
  destruct (LichessApiCall.next regulated_request json_loads g st)
    as [[r g'] st1].
  destruct r as [v| |e0]; simpl in *.
  - destruct (LichessApiCall.iterate regulated_request json_loads n g' st1)
      as [[vs1 r1] st2] eqn:Hit.
    intros [= <- -> <-]. by eapply IH.
  - done.
  - intros [= <- <- <-]. by apply Hp.
Qed.

(** C8 (amended). No exception that is an instance of [Exception] leaves
    the generator of [export_by_player]. When the request raises one, the
    first [next] logs one error line, which names the user and the error,
    and ends the iteration: the caller gets no object. When [json.loads]
    raises one on a line, the iteration ends there in the same way, after
    the objects of the lines before. An exception outside the [Exception]
    hierarchy is not captured: raised by the request, or by [json.loads]
    on a line, it propagates to the caller of [next], and nothing is
    logged. *)
Theorem export_captures_Exception a st :
  (∀ g st0 e, (next g st0).1.1 = LichessApiCall.Propagated e →
     isinstance_Exception e = false) ∧
  (∀ n vs e st',
     iterate n (LichessApiCall.export_by_player a st).1
       (LichessApiCall.export_by_player a st).2
     = (vs, Some (LichessApiCall.Propagated e), st') →
     isinstance_Exception e = false) ∧
  (∀ e n,
     regulated_request (export_url a st) (export_headers st)
       (LichessApiCall.params a) = Raised e →
     isinstance_Exception e = true →
     ∃ st',
       iterate (S n) (LichessApiCall.export_by_player a st).1
         (LichessApiCall.export_by_player a st).2
       = ([], Some LichessApiCall.StopIteration, st') ∧
       log st' = log st ++ [export_error (LichessApiCall.username a) e]) ∧
  (∀ resp n vs r st' line e,
     regulated_request (export_url a st) (export_headers st)
       (LichessApiCall.params a) = Returned resp →
     length (splitlines (requests.text resp)) < n →
     iterate n (LichessApiCall.export_by_player a st).1
       (LichessApiCall.export_by_player a st).2 = (vs, Some r, st') →
     non_blank (splitlines (requests.text resp)) !! length vs = Some line →
     json_loads line = Raised e →
     isinstance_Exception e = true →
     r = LichessApiCall.StopIteration ∧
     log st' = log st ++ [export_error (LichessApiCall.username a) e] ∧
     Forall2 (λ line v, json_loads line = Returned v)
       (take (length vs) (non_blank (splitlines (requests.text resp)))) vs) ∧
  (∀ e, contains (LichessApiCall.username a)
          (export_error (LichessApiCall.username a) e) ∧
        contains (str_exc e) (export_error (LichessApiCall.username a) e)) ∧
  (∀ e n,
     regulated_request (export_url a st) (export_headers st)
       (LichessApiCall.params a) = Raised e →
     isinstance_Exception e = false →
     ∃ st',
       iterate (S n) (LichessApiCall.export_by_player a st).1
         (LichessApiCall.export_by_player a st).2
       = ([], Some (LichessApiCall.Propagated e), st') ∧
       log st' = log st) ∧
  (∀ resp n vs r st' line e,
     regulated_request (export_url a st) (export_headers st)
       (LichessApiCall.params a) = Returned resp →
     length (splitlines (requests.text resp)) < n →
     iterate n (LichessApiCall.export_by_player a st).1
       (LichessApiCall.export_by_player a st).2 = (vs, Some r, st') →
     non_blank (splitlines (requests.text resp)) !! length vs = Some line →
     json_loads line = Raised e →
     isinstance_Exception e = false →
     r = LichessApiCall.Propagated e ∧
     log st' = log st ∧
     Forall2 (λ line v, json_loads line = Returned v)
       (take (length vs) (non_blank (splitlines (requests.text resp)))) vs).
Proof.
  split_and!.
  - apply next_Propagated.
  - intros n vs e st'. apply iterate_Propagated.
  - intros e n Hreq He. eexists. split.
    + unfold LichessApiCall.export_by_player. cbn [fst snd].
      rewrite iterate_S, next_Created, Hreq.
      by rewrite except_clause_Exception.
    + done.
  - intros resp n vs r st' line e Hreq Hn Hit Hlk Hj He.
    destruct (iterate_export_response a st resp n Hreq Hn)
      as (vs0 & r0 & st0 & Hit0 & Hf & Hend).
    rewrite Hit in Hit0. injection Hit0 as <- <- <-.
    destruct Hend as [(Hl & _ & _)|(line' & e' & Hlk' & Hj' & Hex)].
    + apply lookup_lt_Some in Hlk. lia.
    + assert (line' = line) as -> by congruence.
      assert (e' = e) as -> by congruence.
      rewrite except_clause_Exception in Hex by done.
      injection Hex as <- <-. done.
  - intros e. unfold export_error. split; solve_contains.
  - intros e n Hreq He. eexists. split.
    + unfold LichessApiCall.export_by_player. cbn [fst snd].
      rewrite iterate_S, next_Created, Hreq.
      unfold LichessApiCall.except_clause. by rewrite He.
    + done.
  - intros resp n vs r st' line e Hreq Hn Hit Hlk Hj He.
    destruct (iterate_export_response a st resp n Hreq Hn)
      as (vs0 & r0 & st0 & Hit0 & Hf & Hend).
    rewrite Hit in Hit0. injection Hit0 as <- <- <-.
    destruct Hend as [(Hl & _ & _)|(line' & e' & Hlk' & Hj' & Hex)].
    + apply lookup_lt_Some in Hlk. lia.
    + assert (line' = line) as -> by congruence.
      assert (e' = e) as -> by congruence.
      unfold LichessApiCall.except_clause in Hex. rewrite He in Hex.
      injection Hex as <- <-. done.
Qed.

(** *** The headers shared through the class attribute *)

Context (requests_get : string → dict → outcome requests.Response).

Let get_user_performance := LichessApiCall.get_user_performance requests_get.

Let perform_call := perform regulated_request json_loads requests_get.

Lemma same_but_log_refl st : same_but_log st st.
Proof. by unfold same_but_log. Qed.

Lemma except_clause_same username e st :
  same_but_log st (LichessApiCall.except_clause username e st).2.
Proof.
  unfold LichessApiCall.except_clause.
  by destruct (isinstance_Exception e).
Qed.

Lemma for_loop_same username lines st :
  same_but_log st (for_loop username lines st).2.
Proof.
  subst for_loop. induction lines as [|line rest IH]; simpl.
  - apply same_but_log_refl.
  - destruct (truthy (strip line)); [|done].
    destruct (json_loads line); [apply same_but_log_refl|].
    apply except_clause_same.
Qed.

Lemma next_Created_same a st :
  same_but_log (after_request a st) (next (LichessApiCall.Created a) st).2.
Proof.
  rewrite next_Created. destruct (regulated_request _ _ _).
  - apply for_loop_same.
  - apply except_clause_same.
Qed.

Lemma deref_same st st' :
  same_but_log st st' →
  deref st' (LichessApiCall_headers st') = deref st (LichessApiCall_headers st).
Proof. intros (Hh & _ & _ & _ & Ha & _). unfold deref. by rewrite Hh, Ha. Qed.

Lemma deref_after_request a st :
  deref (after_request a st) (LichessApiCall_headers (after_request a st))
  = export_headers st.
Proof. unfold after_request. simpl. apply deref_setitem. Qed.

(** Every call keeps the entry, and sends its request with it. *)
Lemma perform_keeps_Accept st c :
  Accept_shared st →
  Accept_shared (perform_call st c) ∧
  LichessApiCall_headers (perform_call st c) = LichessApiCall_headers st ∧
  ∃ new, sent (perform_call st c) = sent st ++ new ∧
         Forall (λ req, carries_Accept req.2) new.
Proof.
  intros Hacc. subst perform_call.
  destruct c as [username perf_type|g]; unfold perform; fold next.
  - unfold LichessApiCall.get_user_performance.
    destruct (requests_get _ _) as [response|e]; [case_decide|]; simpl;
      (split_and!; [done|done|eexists; split; [done|]]);
      by repeat constructor.
  - destruct g as [a|username lines|].
    + pose proof (next_Created_same a st) as Hs.
      pose proof (deref_same _ _ Hs) as Hd.
      rewrite deref_after_request in Hd.
      destruct Hs as (_ & _ & _ & _ & Ha & Hsent).
      split_and!.
      * unfold Accept_shared, carries_Accept. rewrite Hd.
        unfold export_headers. by rewrite lookup_insert_eq.
      * by rewrite Ha.
      * rewrite Hsent. eexists. split; [done|].
        repeat constructor. unfold carries_Accept, export_headers. simpl.
        by rewrite lookup_insert_eq.
    + change (next (LichessApiCall.Suspended username lines) st)
        with (for_loop username lines st).
      pose proof (for_loop_same username lines st) as Hs.
      pose proof (deref_same _ _ Hs) as Hd.
      destruct Hs as (_ & _ & _ & _ & Ha & Hsent).
      split_and!.
      * unfold Accept_shared. by rewrite Hd.
      * done.
      * exists []. split; [by rewrite app_nil_r|constructor].
    + change (next LichessApiCall.Finished st)
        with (LichessApiCall.StopIteration, LichessApiCall.Finished, st).
      split_and!; try done.
      exists []. split; [by rewrite app_nil_r|constructor].
Qed.

Lemma foldl_perform_keeps_Accept calls : ∀ st,
  Accept_shared st →
  Accept_shared (foldl perform_call st calls) ∧
  LichessApiCall_headers (foldl perform_call st calls) = LichessApiCall_headers st ∧
  ∃ new, sent (foldl perform_call st calls) = sent st ++ new ∧
         Forall (λ req, carries_Accept req.2) new.
Proof.
  induction calls as [|c calls IH]; intros st Hacc; simpl.
  - split_and!; try done. exists []. split; [by rewrite app_nil_r|constructor].
  - destruct (perform_keeps_Accept st c Hacc) as (Hacc1 & Ha1 & new1 & Hs1 & Hf1).
    destruct (IH _ Hacc1) as (Hacc2 & Ha2 & new2 & Hs2 & Hf2).
    split_and!; [done|congruence|].
    exists (new1 ++ new2). split.
    + by rewrite Hs2, Hs1, app_assoc.
    + by apply Forall_app.
Qed.

(** C9 (amended). The call of [export_by_player] only creates the
    generator and changes nothing. It is the first [next] on the generator
    that binds [LichessApiCall.headers] by reference and sets the key
    [Accept] to [application/x-ndjson] in that one dictionary: the other
    keys of the dictionary, the other dictionaries and all class attributes
    are as they were. From then on the dictionary keeps the entry whatever
    is called, and every request made with it, the one of the export
    itself and those of [get_user_performance] included, carries the
    header. *)
Theorem first_next_sets_Accept_on_shared_headers a st :
  (LichessApiCall.export_by_player a st).2 = st ∧
  let g := (LichessApiCall.export_by_player a st).1 in
  let h := LichessApiCall_headers st in
  let st1 := (next g st).2 in
  heap st1
  = <[h := <["Accept" := "application/x-ndjson"]> (deref st h)]> (heap st) ∧
  LichessApiCall_headers st1 = h ∧
  LichessApiCall_lichess_url st1 = LichessApiCall_lichess_url st ∧
  WovApiCall_headers st1 = WovApiCall_headers st ∧
  WovApiCall_api_url st1 = WovApiCall_api_url st ∧
  deref st1 h = <["Accept" := "application/x-ndjson"]> (deref st h) ∧
  (∀ k, k ≠ "Accept" → deref st1 h !! k = deref st h !! k) ∧
  (∀ h', h' ≠ h → heap st1 !! h' = heap st !! h') ∧
  (∀ calls,
     Accept_shared (foldl perform_call st1 calls) ∧
     ∃ new, sent (foldl perform_call st1 calls) = sent st ++ new ∧
            Forall (λ req, carries_Accept req.2) new) ∧
  (∀ calls username perf_type,
     ∃ url h2,
       sent (get_user_performance username perf_type
               (foldl perform_call st1 calls)).2
       = sent (foldl perform_call st1 calls) ++ [(url, h2)] ∧
       carries_Accept h2).
Proof.
  split; [done|]. cbv zeta.
  unfold LichessApiCall.export_by_player. cbn [fst snd].
  pose proof (next_Created_same a st) as Hs.
  pose proof (deref_same _ _ Hs) as Hd. rewrite deref_after_request in Hd.
  destruct Hs as (Hheap & Hwh & Hwu & Hlu & Hlh & Hsent).
  set (st1 := (next (LichessApiCall.Created a) st).2) in *.
  change (LichessApiCall_headers (after_request a st))
    with (LichessApiCall_headers st) in *.
  assert (Hacc : Accept_shared st1).
  { unfold Accept_shared, carries_Accept. rewrite Hd.
    unfold export_headers. by rewrite lookup_insert_eq. }
  rewrite Hlh in Hd.
  split_and!; try done.
  - intros k Hk. rewrite Hd. unfold export_headers.
    by rewrite lookup_insert_ne.
  - intros h' Hh'. rewrite Hheap. unfold after_request. simpl.
    by rewrite lookup_insert_ne.
  - intros calls.
    destruct (foldl_perform_keeps_Accept calls st1 Hacc)
      as (Hacc2 & _ & new & Hs2 & Hf).
    split; [done|]. rewrite Hs2, Hsent. unfold after_request. simpl.
    exists ((export_url a st, export_headers st) :: new).
    split; [by rewrite <- app_assoc|].
    constructor; [|done]. unfold carries_Accept, export_headers. simpl.
    by rewrite lookup_insert_eq.
  - intros calls username perf_type.
    destruct (foldl_perform_keeps_Accept calls st1 Hacc) as (Hacc2 & _).
    destruct (perform_keeps_Accept _
                (Call_get_user_performance username perf_type) Hacc2)
      as (_ & _ & new & Hs2 & Hf).
    simpl in Hs2. unfold get_user_performance in *.
    unfold LichessApiCall.get_user_performance in *.
    destruct (requests_get _ _) as [response|e]; [case_decide|]; simpl in *;
      eexists _, _; (split; [done|]); exact Hacc2.
Qed.

End ExportByPlayer.

(** ** The export on the sample bodies *)

Lemma export_yields_one_object_per_non_blank_line_witness :
  ∃ vs r st',
    LichessApiCall.iterate (responds ndjson_body) sample_loads 6
      (LichessApiCall.export_by_player (LichessApiCall.defaults "ann")
         (imported "w" "l")).1
      (LichessApiCall.export_by_player (LichessApiCall.defaults "ann")
         (imported "w" "l")).2 = (vs, Some r, st') ∧
    Forall2 (λ line v, sample_loads line = Returned v)
      (take (length vs) (non_blank (splitlines ndjson_body))) vs ∧
    (length vs = length (non_blank (splitlines ndjson_body)) ∧
     r = LichessApiCall.StopIteration
     ∨
     ∃ line e,
       non_blank (splitlines ndjson_body) !! length vs = Some line ∧
       sample_loads line = Raised e) ∧
    (Forall (λ line, ∃ v, sample_loads line = Returned v)
       (non_blank (splitlines ndjson_body)) →
     Forall2 (λ line v, sample_loads line = Returned v)
       (non_blank (splitlines ndjson_body)) vs ∧
     r = LichessApiCall.StopIteration) ∧
    (∀ line, line ∈ non_blank (splitlines ndjson_body) ↔
             line ∈ splitlines ndjson_body ∧
             ∃ c, c ∈ String.list_ascii_of_string line ∧ isspace c = false).
Proof.
  apply (export_yields_one_object_per_non_blank_line
           (responds ndjson_body) sample_loads
           (LichessApiCall.defaults "ann") (imported "w" "l")
           (response_with ndjson_body) 6).
  - reflexivity.
  - vm_compute. lia.
Defined.

(** The claim C10 as it stands fails on a body with a line that is no
    JSON: of the three non-blank lines only the first gives an object; the
    third, which would decode, is never read. *)
Lemma undecodable_line_ends_export :
  non_blank (splitlines broken_body) = ["1"; "oops"; "3"] ∧
  (LichessApiCall.iterate (responds broken_body) sample_loads 9
     (LichessApiCall.export_by_player (LichessApiCall.defaults "ann")
        (imported "w" "l")).1
     (LichessApiCall.export_by_player (LichessApiCall.defaults "ann")
        (imported "w" "l")).2).1
  = ([VInt 1], Some LichessApiCall.StopIteration) ∧
  sample_loads "3" = Returned (VInt 3).
Proof. by vm_compute. Qed.

Lemma export_captures_Exception_witness :
  (∃ st',
     LichessApiCall.iterate
       (request_fails (Exception_ "ReadTimeout" "timed out")) sample_loads 1
       (LichessApiCall.export_by_player (LichessApiCall.defaults "ann")
          (imported "w" "l")).1
       (LichessApiCall.export_by_player (LichessApiCall.defaults "ann")
          (imported "w" "l")).2
     = ([], Some LichessApiCall.StopIteration, st') ∧
     log st' = log (imported "w" "l")
               ++ [export_error "ann" (Exception_ "ReadTimeout" "timed out")]) ∧
  (∀ vs r st',
     LichessApiCall.iterate (responds broken_body) sample_loads 4
       (LichessApiCall.export_by_player (LichessApiCall.defaults "ann")
          (imported "w" "l")).1
       (LichessApiCall.export_by_player (LichessApiCall.defaults "ann")
          (imported "w" "l")).2 = (vs, Some r, st') →
     non_blank (splitlines broken_body) !! length vs = Some "oops" →
     r = LichessApiCall.StopIteration ∧
     log st' = log (imported "w" "l")
               ++ [export_error "ann"
                     (Exception_ "JSONDecodeError"
                        "Expecting value: line 1 column 1 (char 0)")] ∧
     Forall2 (λ line v, sample_loads line = Returned v)
       (take (length vs) (non_blank (splitlines broken_body))) vs).
Proof.
  split.
  - apply (export_captures_Exception
             (request_fails (Exception_ "ReadTimeout" "timed out"))
             sample_loads (LichessApiCall.defaults "ann") (imported "w" "l"));
      reflexivity.
  - intros vs r st' Hit Hlk.
    apply (proj1 (proj2 (proj2 (proj2
             (export_captures_Exception (responds broken_body) sample_loads
                (LichessApiCall.defaults "ann") (imported "w" "l")))))
             (response_with broken_body) 4 vs r st' "oops"
             (Exception_ "JSONDecodeError"
                "Expecting value: line 1 column 1 (char 0)"));
      [reflexivity|vm_compute; lia|exact Hit|exact Hlk|reflexivity|reflexivity].
Defined.

(** The claim C8 as it stands fails for an exception outside the
    [Exception] hierarchy: a [KeyboardInterrupt] during the request leaves
    the generator, and nothing is logged. *)
Lemma export_lets_KeyboardInterrupt_through :
  (LichessApiCall.iterate
     (request_fails (BaseException_ "KeyboardInterrupt" "")) sample_loads 3
     (LichessApiCall.export_by_player (LichessApiCall.defaults "ann")
        (imported "w" "l")).1
     (LichessApiCall.export_by_player (LichessApiCall.defaults "ann")
        (imported "w" "l")).2).1
  = ([], Some (LichessApiCall.Propagated
                 (BaseException_ "KeyboardInterrupt" ""))) ∧
  log (LichessApiCall.iterate
         (request_fails (BaseException_ "KeyboardInterrupt" "")) sample_loads 3
         (LichessApiCall.export_by_player (LichessApiCall.defaults "ann")
            (imported "w" "l")).1
         (LichessApiCall.export_by_player (LichessApiCall.defaults "ann")
            (imported "w" "l")).2).2 = [].
Proof. by vm_compute. Qed.

Lemma first_next_sets_Accept_on_shared_headers_witness :
  deref (LichessApiCall.next (responds ndjson_body) sample_loads
           (LichessApiCall.export_by_player (LichessApiCall.defaults "ann")
              (imported "w" "l")).1 (imported "w" "l")).2 1
  = <["Accept" := "application/x-ndjson"]> (deref (imported "w" "l") 1) ∧
  ∃ url h2,
    sent (LichessApiCall.get_user_performance performance_found "ann" "blitz"
            (foldl (perform (responds ndjson_body) sample_loads
                      performance_found)
               (LichessApiCall.next (responds ndjson_body) sample_loads
                  (LichessApiCall.export_by_player
                     (LichessApiCall.defaults "ann") (imported "w" "l")).1
                  (imported "w" "l")).2
               [Call_get_user_performance "bob" "rapid"])).2
    = sent (foldl (perform (responds ndjson_body) sample_loads
                     performance_found)
              (LichessApiCall.next (responds ndjson_body) sample_loads
                 (LichessApiCall.export_by_player
                    (LichessApiCall.defaults "ann") (imported "w" "l")).1
                 (imported "w" "l")).2
              [Call_get_user_performance "bob" "rapid"])
      ++ [(url, h2)] ∧
    carries_Accept h2.
Proof.
  pose proof (first_next_sets_Accept_on_shared_headers
                (responds ndjson_body) sample_loads performance_found
                (LichessApiCall.defaults "ann") (imported "w" "l"))
    as (_ & _ & _ & _ & _ & _ & Hd & _ & _ & _ & Hreq).
  split; [exact Hd|].
  exact (Hreq [Call_get_user_performance "bob" "rapid"] "ann" "blitz").
Defined.

(** The claim C9 as it stands fails: the call of [export_by_player] leaves
    the dictionary as it was, and a request of [get_user_performance] made
    after the call carries no [Accept] header. Only once the generator has
    been advanced is the header there. *)
Lemma export_call_alone_sets_no_Accept :
  (LichessApiCall.export_by_player (LichessApiCall.defaults "ann")
     (imported "w" "l")).2 = imported "w" "l" ∧
  sent (LichessApiCall.get_user_performance performance_found "ann" "blitz"
          (LichessApiCall.export_by_player (LichessApiCall.defaults "ann")
             (imported "w" "l")).2).2
  = [("https://lichess.org/api/user/ann/perf/blitz",
      {[ "Authorization" := "Bearer l" ]})] ∧
  ({[ "Authorization" := "Bearer l" ]} : dict) !! "Accept" = None ∧
  sent (LichessApiCall.get_user_performance performance_found "ann" "blitz"
          (LichessApiCall.next (responds ndjson_body) sample_loads
             (LichessApiCall.export_by_player (LichessApiCall.defaults "ann")
                (imported "w" "l")).1
             (imported "w" "l")).2).2 !! 1
  = Some ("https://lichess.org/api/user/ann/perf/blitz",
          <["Accept" := "application/x-ndjson"]>
            ({[ "Authorization" := "Bearer l" ]} : dict)).
Proof. split_and!; vm_compute; reflexivity. Qed.

(** * Further properties of the queue *)

(** ** A future that is not pending *)

Lemma try_except_not_pending o fut fs o' :
  fs !! fut = Some (Done o') →
  (∀ e, o = Raised e → isinstance_Exception e = true) →
  try_except o fut fs = Raised InvalidStateError.
Proof.
  intros Hf Ho. unfold try_except, try_block, set_result, set_exception.
  destruct o as [v|e]; [|rewrite (Ho e eq_refl)]; by rewrite !Hf.
Qed.

(** X1. When the future of the task in progress is no longer pending at the
    end of the operation (the caller has cancelled it, say), the worker
    does not survive: [set_result] raises [InvalidStateError], the handler
    catches it and [set_exception] raises it again, out of the [try]
    statement and out of the loop. The future and the queue are left as
    they were ([task_done] is not reached, nor the cooldown), and the
    worker is dead for ever. *)
Theorem resolved_future_kills_worker s tk since d o o' :
  worker s = AtFunc tk since →
  task_behaviour tk = Completes d o →
  since + d ≤ now s →
  (∀ e, o = Raised e → isinstance_Exception e = true) →
  futures s !! task_future tk = Some (Done o') →
  ∃ s', process_queue s = Some s' ∧
        worker s' = Dead InvalidStateError ∧
        futures s' = futures s ∧ queue s' = queue s ∧
        trace s' = Escaped (task_future tk) (now s) :: trace s ∧
        ∀ evs s'', run evs s' = Some s'' →
          worker s'' = Dead InvalidStateError ∧
          n_completed (trace s'') = n_completed (trace s).
Proof.
  intros Hwk Hb Hle Ho Hf. eexists. split.
  - unfold process_queue. rewrite Hwk, Hb, decide_True by done.
    by rewrite (try_except_not_pending _ _ _ _ Hf Ho).
  - simpl. split_and!; try done.
    intros evs s'' Hrun.
    apply halted_run in Hrun as (Hw & Ht & _); [|done].
    by rewrite Hw, Ht.
Qed.

Lemma resolved_future_kills_worker_witness :
  (worker state_cancelled = AtFunc (op_C, [], 0) 0 ∧
   task_behaviour (op_C, [], 0) = Completes 1 (Returned (VInt 3)) ∧
   0 + 1 ≤ now state_cancelled ∧
   futures state_cancelled !! 0
   = Some (Done (Raised (BaseException_ "CancelledError" "")))) ∧
  ∃ s', process_queue state_cancelled = Some s' ∧
        worker s' = Dead InvalidStateError ∧
        futures s' = futures state_cancelled ∧
        queue s' = queue state_cancelled ∧
        trace s' = Escaped 0 1 :: trace state_cancelled ∧
        ∀ evs s'', run evs s' = Some s'' →
          worker s'' = Dead InvalidStateError ∧
          n_completed (trace s'') = n_completed (trace state_cancelled).
Proof.
  split; [by vm_compute|].
  apply (resolved_future_kills_worker state_cancelled (op_C, [], 0) 0 1
           (Returned (VInt 3)) (Raised (BaseException_ "CancelledError" "")));
    [reflexivity|reflexivity|simpl; lia|done|reflexivity].
Defined.

(** ** What kills the worker *)

(** X2. As long as the futures are resolved by the worker only, the worker
    dies of two things only, both brought by the operation of a submitted
    task: an exception outside the [Exception] hierarchy, which
    [except Exception] lets through; or a [StopIteration], which is caught
    and which [set_exception] refuses with a [TypeError]. Nothing else
    raises: [set_result] and [set_exception] find the future pending (no
    [InvalidStateError]) and [task_done] is never called too often (no
    [ValueError]). The future of the task that killed the worker is
    pending. *)
Theorem what_kills_the_worker s e :
  reachable s → worker s = Dead e →
  e ≠ InvalidStateError ∧ (∀ msg, e ≠ ValueError msg) ∧
  ∃ fut t tr tk d e0,
    trace s = Escaped fut t :: tr ∧
    submitted s !! fut = Some tk ∧
    task_behaviour tk = Completes d (Raised e0) ∧
    (isinstance_Exception e0 = false ∧ e = e0 ∨
     is_StopIteration e0 = true ∧ e = StopIteration_refused) ∧
    futures s !! fut = Some Pending.
Proof.
  intros Hr Hwk. pose proof (reachable_Inv _ Hr) as HI.
  pose proof (inv_worker _ HI) as Hw. unfold worker_ok in Hw.
  rewrite Hwk in Hw.
  pose proof (inv_trace _ HI) as Hwf.
  pose proof (trace_wf_counts _ Hwf) as Hc.
  destruct (trace s) as [|[fut t|fut t|fut t] tr] eqn:Htr; try done.
  destruct Hw as (tk & d & e0 & Hlk & Hb & He & ->).
  assert (Hcause : isinstance_Exception e0 = false ∧ escaping e0 = e0 ∨
                   is_StopIteration e0 = true ∧
                   escaping e0 = StopIteration_refused).
  { unfold stored in He. unfold escaping.
    destruct (isinstance_Exception e0); [right|by left].
    split; [|done]. by destruct (is_StopIteration e0). }
  split_and!.
  - intros Heq. destruct Hcause as [[Hi Hesc]|[_ Hesc]]; rewrite Hesc in Heq.
    + by rewrite Heq in Hi.
    + done.
  - intros msg Heq.
    destruct Hcause as [[Hi Hesc]|[_ Hesc]]; rewrite Hesc in Heq.
    + by rewrite Heq in Hi.
    + done.
  - exists fut, t, tr, tk, d, e0. split_and!; try done.
    simpl in Hwf. destruct Hwf as (Hwf & Hhd).
    destruct tr as [|[fut0 t0| |] tr']; try done.
    destruct Hhd as [-> _]. simpl in Hwf. destruct Hwf as (Hfut & _ & _).
    apply (inv_pending _ HI).
    + rewrite Htr. simpl in *. lia.
    + rewrite (inv_length _ HI). by eapply lookup_lt_Some.
Qed.

Lemma what_kills_the_worker_witness :
  (run [Submit op_stop []; Submit op_C []; Work; Work] init
   = Some state_refused ∧
   worker state_refused = Dead StopIteration_refused) ∧
  StopIteration_refused ≠ InvalidStateError ∧
  (∀ msg, StopIteration_refused ≠ ValueError msg) ∧
  ∃ fut t tr tk d e0,
    trace state_refused = Escaped fut t :: tr ∧
    submitted state_refused !! fut = Some tk ∧
    task_behaviour tk = Completes d (Raised e0) ∧
    (isinstance_Exception e0 = false ∧ StopIteration_refused = e0 ∨
     is_StopIteration e0 = true ∧
     StopIteration_refused = StopIteration_refused) ∧
    futures state_refused !! fut = Some Pending.
Proof.
  split; [by vm_compute|].
  apply (what_kills_the_worker state_refused).
  - exists [Submit op_stop []; Submit op_C []; Work; Work]. by vm_compute.
  - reflexivity.
Defined.

(** ** No task is lost *)

(** X3. In every reachable state the queue holds exactly the submitted
    tasks not yet started, in the order of their submission; the tasks
    before them are completed, but for the newest one when it is in
    progress or has killed the worker; and [unfinished_tasks], the counter
    [queue.join()] waits for, is the number of submitted tasks that are not
    completed. *)
Theorem queue_holds_the_tasks_not_started s :
  reachable s →
  submitted s = take (n_started (trace s)) (submitted s) ++ items (queue s) ∧
  n_started (trace s)
  = n_completed (trace s)
    + match worker s with AtFunc _ _ | Dead _ => 1 | _ => 0 end ∧
  (∀ tk since, worker s = AtFunc tk since →
     submitted s !! n_completed (trace s) = Some tk) ∧
  unfinished_tasks (queue s) + n_completed (trace s) = length (submitted s).
Proof.
  intros Hr. pose proof (reachable_Inv _ Hr) as HI.
  pose proof (inv_trace _ HI) as Hwf.
  pose proof (trace_wf_counts _ Hwf) as Hc.
  pose proof (inv_worker _ HI) as Hw. unfold worker_ok in Hw.
  split_and!.
  - rewrite (inv_items _ HI). by rewrite take_drop.
  - destruct (worker s); destruct (trace s) as [|[] ?]; simpl in *;
      try done; lia.
  - intros tk since Hwk.
    destruct (AtFunc_facts _ _ _ HI Hwk) as (tr & _ & Hf & Hlk & _).
    by rewrite <- Hf.
  - pose proof (inv_unfinished _ HI) as Hu.
    pose proof (inv_started _ HI) as Hs.
    rewrite (inv_items _ HI), length_drop in Hu. lia.
Qed.

Lemma queue_holds_the_tasks_not_started_witness :
  run [Submit op_exit []; Submit op_C []; Work; Work] init = Some state_exited ∧
  submitted state_exited
  = take (n_started (trace state_exited)) (submitted state_exited)
    ++ items (queue state_exited) ∧
  n_started (trace state_exited)
  = n_completed (trace state_exited)
    + match worker state_exited with AtFunc _ _ | Dead _ => 1 | _ => 0 end ∧
  (∀ tk since, worker state_exited = AtFunc tk since →
     submitted state_exited !! n_completed (trace state_exited) = Some tk) ∧
  unfinished_tasks (queue state_exited) + n_completed (trace state_exited)
  = length (submitted state_exited).
Proof.
  split; [by vm_compute|].
  apply (queue_holds_the_tasks_not_started state_exited).
  exists [Submit op_exit []; Submit op_C []; Work; Work]. by vm_compute.
Defined.

(** ** The rate limit *)

Lemma trace_wf_rate tr :
  trace_wf tr → ∀ m i ti r, tr = m ++ Started i ti :: r →
  i < n_started tr ∧ ti + (n_started tr - 1 - i) ≤ newest_time tr.
Proof.
  induction tr as [|o tr IH]; intros Hwf m i ti r Heq.
  - by destruct m.
  - destruct m as [|o' m]; simplify_eq/=.
    + destruct Hwf as (-> & _ & _). split; lia.
    + pose proof (trace_wf_tail _ _ Hwf) as Hwf'.
      destruct (IH Hwf' m i ti r eq_refl) as [Hlt Hle].
      destruct (m ++ Started i ti :: r) as [|o2 tr2] eqn:Htr;
        [by destruct m|].
      destruct o' as [f t|f t|f t]; simpl in Hwf.
      * destruct Hwf as (_ & _ & Hhd).
        destruct o2 as [| |]; try done. simpl in *. lia.
      * destruct Hwf as (_ & Hhd).
        destruct o2 as [| |]; try done. simpl in *. lia.
      * destruct Hwf as (_ & Hhd).
        destruct o2 as [| |]; try done. simpl in *. lia.
Qed.

Lemma trace_wf_n_started tr :
  trace_wf tr → n_started tr ≤ S (newest_time tr).
Proof.
  induction tr as [|o tr IH]; intros Hwf; [simpl; lia|].
  pose proof (trace_wf_tail _ _ Hwf) as Hwf'. specialize (IH Hwf').
  destruct o as [f t|f t|f t]; simpl in Hwf.
  - destruct Hwf as (_ & _ & Hhd).
    destruct tr as [|[] ?]; try done; simpl in *; lia.
  - destruct Hwf as (_ & Hhd).
    destruct tr as [|[] ?]; try done; simpl in *; lia.
  - destruct Hwf as (_ & Hhd).
    destruct tr as [|[] ?]; try done; simpl in *; lia.
Qed.

(** Nothing in the trace is dated later than the clock of the loop. *)
Lemma trace_times_do_event ev s s' :
  Forall (λ o, obs_time o ≤ now s) (trace s) → do_event ev s = Some s' →
  Forall (λ o, obs_time o ≤ now s') (trace s').
Proof.
  intros HF Hev. destruct ev as [func args| |]; simpl in Hev.
  - unfold add_to_queue in Hev. destruct (put _ _); by simplify_eq/=.
  - simplify_eq/=. eapply Forall_impl; [done|]. simpl. lia.
  - unfold process_queue in Hev.
    repeat (case_match; simplify_eq); simpl; try done;
      by constructor.
Qed.

Lemma trace_times_run evs : ∀ s s',
  Forall (λ o, obs_time o ≤ now s) (trace s) → run evs s = Some s' →
  Forall (λ o, obs_time o ≤ now s') (trace s').
Proof.
  induction evs as [|ev evs IH]; intros s s' HF Hrun; simpl in Hrun.
  - by simplify_eq.
  - destruct (do_event ev s) as [s1|] eqn:Hev; [|done].
    eapply IH; [|done]. by eapply trace_times_do_event.
Qed.

(** X4. The worker starts the operations at a rate of at most one per time
    unit: between the start of the task [i] and the start of a later task
    [j] at least [j - i] time units pass, whatever the operations did and
    however they ended. So the task [i] does not start before the time [i],
    and by the time [T] at most [T + 1] operations have been started. *)
Theorem operations_start_at_most_once_per_time_unit s :
  reachable s →
  (∀ k j tj m i ti r, trace s = k ++ Started j tj :: m ++ Started i ti :: r →
     i < j ∧ ti + (j - i) ≤ tj) ∧
  (∀ k i ti r, trace s = k ++ Started i ti :: r → i ≤ ti ∧ ti ≤ now s) ∧
  n_started (trace s) ≤ S (now s).
Proof.
  intros Hr. pose proof (reachable_Inv _ Hr) as HI.
  pose proof (inv_trace _ HI) as Hwf.
  assert (Ht : Forall (λ o, obs_time o ≤ now s) (trace s)).
  { destruct Hr as [evs Hrun].
    eapply trace_times_run; [|done]. constructor. }
  split_and!.
  - intros k j tj m i ti r Heq. rewrite Heq in Hwf.
    apply trace_wf_suffix in Hwf.
    pose proof (trace_wf_tail _ _ Hwf) as Hwf'.
    destruct (trace_wf_rate _ Hwf' m i ti r eq_refl) as [Hlt Hle].
    simpl in Hwf. destruct Hwf as (-> & _ & Hhd).
    split; [done|].
    destruct (m ++ Started i ti :: r) as [|[] ?]; try done; simpl in *; lia.
  - intros k i ti r Heq. split.
    + rewrite Heq in Hwf. apply trace_wf_suffix in Hwf.
      pose proof (trace_wf_n_started _ Hwf) as Hn.
      simpl in Hwf. destruct Hwf as (-> & _ & _). simpl in Hn. lia.
    + rewrite Forall_forall in Ht. apply (Ht (Started i ti)).
      rewrite Heq. set_solver.
  - pose proof (trace_wf_n_started _ Hwf) as Hn.
    destruct (trace s) as [|o tr]; [simpl; lia|].
    apply Forall_cons in Ht as [Ho _]. simpl in *. lia.
Qed.

Lemma operations_start_at_most_once_per_time_unit_witness :
  run scenario_ABC init = Some state_ABC ∧
  (∀ k j tj m i ti r,
     trace state_ABC = k ++ Started j tj :: m ++ Started i ti :: r →
     i < j ∧ ti + (j - i) ≤ tj) ∧
  (∀ k i ti r, trace state_ABC = k ++ Started i ti :: r →
     i ≤ ti ∧ ti ≤ now state_ABC) ∧
  n_started (trace state_ABC) ≤ S (now state_ABC).
Proof.
  split; [by vm_compute|].
  apply (operations_start_at_most_once_per_time_unit state_ABC).
  exists scenario_ABC. by vm_compute.
Defined.

(** ** A worker that is halted *)

(** X5. Once the worker is halted (dead, or awaiting an operation that never
    ends) it stays so whatever happens: no future is resolved any more,
    and yet [add_to_queue] goes on accepting tasks, whose futures are
    pending for ever. *)
Theorem halted_worker_resolves_nothing_more s :
  reachable s → halted s →
  ∀ evs s', run evs s = Some s' →
    halted s' ∧ worker s' = worker s ∧ trace s' = trace s ∧
    (∀ i o, futures s' !! i = Some (Done o) → futures s !! i = Some (Done o)) ∧
    (∀ i, length (futures s) ≤ i → i < length (futures s') →
       futures s' !! i = Some Pending) ∧
    (∀ func args, ∃ s'', add_to_queue func args s'
                         = Some (length (futures s'), s'')).
Proof.
  intros Hr Hh evs s' Hrun. pose proof (reachable_Inv _ Hr) as HI.
  pose proof (Inv_run _ _ _ HI Hrun) as HI'.
  destruct (halted_run _ _ _ Hh Hrun) as (Hw & Ht & Hf & _).
  split_and!; try done.
  - unfold halted. by rewrite Hw.
  - intros i o Hd.
    destruct (resolved_own _ _ _ HI' Hd) as (Hlt & _).
    rewrite Ht in Hlt.
    destruct (inv_done _ HI i Hlt) as (tk & o' & _ & _ & Hd').
    pose proof (prefix_lookup_Some _ _ _ _ Hd' Hf). congruence.
  - intros i Hge Hlt. apply (inv_pending _ HI'); [|done].
    rewrite Ht. pose proof (n_completed_le_started _ HI).
    rewrite (inv_length _ HI) in Hge. lia.
  - intros func args. eexists.
    apply add_to_queue_spec, (inv_maxsize _ HI').
Qed.

Lemma halted_worker_resolves_nothing_more_witness :
  (run [Submit op_exit []; Submit op_C []; Work; Work] init = Some state_exited ∧
   halted state_exited) ∧
  ∀ evs s', run evs state_exited = Some s' →
    halted s' ∧ worker s' = worker state_exited ∧
    trace s' = trace state_exited ∧
    (∀ i o, futures s' !! i = Some (Done o) →
            futures state_exited !! i = Some (Done o)) ∧
    (∀ i, length (futures state_exited) ≤ i → i < length (futures s') →
       futures s' !! i = Some Pending) ∧
    (∀ func args, ∃ s'', add_to_queue func args s'
                         = Some (length (futures s'), s'')).
Proof.
  split; [by vm_compute|].
  apply (halted_worker_resolves_nothing_more state_exited).
  - exists [Submit op_exit []; Submit op_C []; Work; Work]. by vm_compute.
  - exact I.
Defined.

(** ** Submissions and the worker do not disturb each other *)

Lemma try_except_app o fut fs :
  fut < length fs →
  try_except o fut (fs ++ [Pending])
  = match try_except o fut fs with
    | Returned fs' => Returned (fs' ++ [Pending])
    | Raised e => Raised e
    end.
Proof.
  intros Hlt. unfold try_except, try_block, set_result, set_exception.
  rewrite lookup_app_l by done.
  destruct o as [v|e].
  - destruct (fs !! fut) as [[|?]|]; simpl; try done.
    by rewrite insert_app_l.
  - destruct (isinstance_Exception e); [|done].
    destruct (fs !! fut) as [[|?]|]; simpl; try done.
    destruct (is_StopIteration e); [done|]. by rewrite insert_app_l.
Qed.

(** X6. A submission and a resumption of the worker that are both possible
    give the same state in either order: the task submitted gets the same
    future, and the step of the worker (taking a task, resolving a future,
    ending the cooldown) is the same whether the task arrived just before
    or just after it. *)
Theorem submission_commutes_with_worker_step func args s s1 :
  reachable s → process_queue s = Some s1 →
  ∃ s2 s3, add_to_queue func args s = Some (length (futures s), s2) ∧
           process_queue s2 = Some s3 ∧
           add_to_queue func args s1 = Some (length (futures s), s3).
Proof.
  intros Hr Hpq. pose proof (reachable_Inv _ Hr) as HI.
  pose proof (Inv_process_queue _ _ HI Hpq) as HI1.
  pose proof (add_to_queue_spec func args s (inv_maxsize _ HI)) as Ha.
  pose proof (add_to_queue_spec func args s1 (inv_maxsize _ HI1)) as Ha1.
  assert (Hlen : length (futures s1) = length (futures s)).
  { rewrite (inv_length _ HI), (inv_length _ HI1).
    by rewrite (process_queue_submitted _ _ Hpq). }
  rewrite Hlen in Ha1.
  eexists _, _. split; [exact Ha|]. split; [|exact Ha1].
  clear Ha Ha1 Hlen HI1.
  unfold process_queue in *. simpl.
  destruct (worker s) as [|tk since|since|e] eqn:Hwk; [| | |done].
  - unfold get in *. simpl.
    destruct (items (queue s)) as [|tk rest] eqn:Hit; [done|].
    by simplify_eq/=.
  - destruct (AtFunc_facts _ _ _ HI Hwk)
      as (tr & Htr & Hf & Hlk & Hpend & _ & Hu).
    destruct (task_behaviour tk) as [d o|]; [|done].
    case_decide; [|done].
    rewrite try_except_app by (by eapply lookup_lt_Some).
    unfold task_done in *. simpl. rewrite Hu in *.
    destruct (try_except o (task_future tk) (futures s)) as [fs|e];
      simplify_eq/=; by rewrite ?Hu.
  - case_decide; [|done]. by simplify_eq/=.
Qed.

Lemma submission_commutes_with_worker_step_witness :
  (run scenario_ABC init = Some state_ABC ∧
   process_queue (tick state_ABC)
   = Some {| now := 7; queue := queue state_ABC; worker := AtGet;
             futures := futures state_ABC; submitted := submitted state_ABC;
             resumptions := 9; trace := trace state_ABC |}) ∧
  ∃ s2 s3, add_to_queue op_A [] (tick state_ABC)
           = Some (length (futures (tick state_ABC)), s2) ∧
           process_queue s2 = Some s3 ∧
           add_to_queue op_A []
             {| now := 7; queue := queue state_ABC; worker := AtGet;
                futures := futures state_ABC; submitted := submitted state_ABC;
                resumptions := 9; trace := trace state_ABC |}
           = Some (length (futures (tick state_ABC)), s3).
Proof.
  split; [by vm_compute|].
  apply (submission_commutes_with_worker_step op_A [] (tick state_ABC)).
  - exists (scenario_ABC ++ [Tick]). by vm_compute.
  - reflexivity.
Defined.

(** ** The time a task waits *)

Lemma drain_add a : ∀ b s, drain (a + b) s = drain b (drain a s).
Proof.
  induction a as [|a IH]; intros b s; simpl; [done|].
  destruct (process_queue s); apply IH.
Qed.

(** While the operation is in progress the worker cannot be resumed: time
    passes. *)
Lemma drain_wait k : ∀ s tk since d o,
  worker s = AtFunc tk since → task_behaviour tk = Completes d o →
  now s + k ≤ since + d → drain k s = later k s.
Proof.
  induction k as [|k IH]; intros s tk since d o Hwk Hb Hle; simpl.
  - by rewrite later_0.
  - unfold process_queue. rewrite Hwk, Hb, decide_False by lia.
    rewrite (IH (tick s) tk since d o); [|done|done|simpl; lia].
    unfold later, tick. simpl. f_equal. lia.
Qed.

(** The worker, resumed as soon as it can be, takes the first task of the
    queue, completes it when its operation ends and is back at
    [queue.get()] one time unit later. *)
Lemma drain_task s tk rest :
  Inv s → worker s = AtGet → items (queue s) = tk :: rest →
  well_behaved tk →
  worker (drain (duration tk + 4) s) = AtGet ∧
  items (queue (drain (duration tk + 4) s)) = rest ∧
  now (drain (duration tk + 4) s) = now s + duration tk + 1 ∧
  trace (drain (duration tk + 4) s)
  = Completed (task_future tk) (now s + duration tk)
    :: Started (task_future tk) (now s) :: trace s.
Proof.
  intros HI Hwk Hit [r Hres].
  pose proof Hres as Hres'. apply resolution_Some in Hres' as (d & Hb & _).
  unfold duration. rewrite Hb.
  replace (d + 4) with (1 + (d + (1 + (1 + 1)))) by lia.
  rewrite !drain_add.
  (* the task is taken from the queue *)
  set (s1 := {| now := now s;
                queue := {| maxsize := maxsize (queue s); items := rest;
                            unfinished_tasks := unfinished_tasks (queue s) |};
                worker := AtFunc tk (now s);
                futures := futures s; submitted := submitted s;
                resumptions := S (resumptions s);
                trace := Started (task_future tk) (now s) :: trace s |}).
  assert (H1 : process_queue s = Some s1).
  { unfold process_queue, get. by rewrite Hwk, Hit. }
  pose proof (Inv_process_queue _ _ HI H1) as HI1.
  assert (Hd1 : drain 1 s = s1) by (simpl; by rewrite H1).
  rewrite Hd1.
  (* the operation is awaited *)
  assert (Hd2 : drain d s1 = later d s1).
  { apply (drain_wait d s1 tk (now s) d r); [done|done|simpl; lia]. }
  pose proof (Inv_drain d _ HI1) as HI2. rewrite Hd2 in *.
  (* the future is resolved *)
  set (s3 := {| now := d + now s;
                queue := {| maxsize := maxsize (queue s); items := rest;
                            unfinished_tasks := length rest |};
                worker := AtSleep (d + now s);
                futures := <[task_future tk := Done r]> (futures s);
                submitted := submitted s;
                resumptions := S (S (resumptions s));
                trace := Completed (task_future tk) (d + now s)
                         :: Started (task_future tk) (now s) :: trace s |}).
  assert (Hd3 : drain 1 (later d s1) = s3).
  { simpl. erewrite process_queue_resolves; [done..|simpl; lia]. }
  rewrite Hd3.
  (* the cooldown *)
  assert (Hd4 : drain 1 s3 = tick s3).
  { simpl. unfold process_queue. simpl. by rewrite decide_False by lia. }
  rewrite Hd4.
  assert (Hd5 : drain 1 (tick s3)
    = {| now := S (d + now s); queue := queue s3; worker := AtGet;
         futures := futures s3; submitted := submitted s3;
         resumptions := S (resumptions s3); trace := trace s3 |}).
  { simpl. unfold process_queue. simpl. by rewrite decide_True by lia. }
  rewrite Hd5. simpl.
  split_and!; try done; try lia.
  by replace (d + now s) with (now s + d) by lia.
Qed.

Lemma drain_completions n : ∀ s x,
  x ∈ completions (trace s) → x ∈ completions (trace (drain n s)).
Proof.
  induction n as [|n IH]; intros s x Hx; simpl; [done|].
  destruct (process_queue s) as [s'|] eqn:Hpq; apply IH; [|done].
  unfold process_queue in Hpq.
  repeat (case_match; simplify_eq); simpl; try done; set_solver.
Qed.

Lemma eager_latency i : ∀ s tk,
  Inv s → worker s = AtGet →
  items (queue s) !! i = Some tk →
  Forall well_behaved (take (S i) (items (queue s))) →
  ∃ n, (task_future tk,
        now s + sum_list (duration <$> take (S i) (items (queue s))) + i)
       ∈ completions (trace (drain n s)).
Proof.
  induction i as [|i IH]; intros s tk HI Hwk Hlk Hwb.
  - destruct (items (queue s)) as [|tk0 rest] eqn:Hit; simplify_eq/=.
    apply Forall_cons in Hwb as [Hwb _].
    destruct (drain_task s tk rest HI Hwk Hit Hwb) as (_ & _ & _ & Htr).
    exists (duration tk + 4). rewrite Htr. simpl.
    replace (now s + (duration tk + 0) + 0) with (now s + duration tk) by lia.
    set_solver.
  - destruct (items (queue s)) as [|tk0 rest] eqn:Hit; simplify_eq/=.
    apply Forall_cons in Hwb as [Hwb0 Hwb].
    destruct (drain_task s tk0 rest HI Hwk Hit Hwb0) as (Hw1 & Hi1 & Hn1 & _).
    pose proof (Inv_drain (duration tk0 + 4) s HI) as HI1.
    destruct (IH _ tk HI1 Hw1) as [n Hn].
    { by rewrite Hi1. }
    { by rewrite Hi1. }
    exists (duration tk0 + 4 + n). rewrite drain_add.
    rewrite Hi1, Hn1 in Hn.
    replace (now s + (duration tk0
               + sum_list (duration <$> take (S i) rest)) + S i)
      with (now s + duration tk0 + 1
            + sum_list (duration <$> take (S i) rest) + i) by lia.
    done.
Qed.

(** X7. How long a task waits. When the worker is waiting at
    [queue.get()] and is resumed as soon as it can be, with no time lost,
    the task at position [i] of the queue is completed exactly when the
    operations of the tasks up to it, run one after the other, have taken
    their time, with one time unit of cooldown between two of them:
    at [now + d_0 + 1 + d_1 + 1 + ... + d_i], provided these operations end
    with a value or with an exception that is stored (an instance of
    [Exception] other than a [StopIteration]). *)
Theorem eager_worker_completion_time s i tk :
  reachable s → worker s = AtGet →
  items (queue s) !! i = Some tk →
  Forall well_behaved (take (S i) (items (queue s))) →
  ∃ n, run (drain_events n s) s = Some (drain n s) ∧
       (task_future tk,
        now s + sum_list (duration <$> take (S i) (items (queue s))) + i)
       ∈ completions (trace (drain n s)) ∧
       NoDup (completions (trace (drain n s))).*1.
Proof.
  intros Hr Hwk Hlk Hwb. pose proof (reachable_Inv _ Hr) as HI.
  destruct (eager_latency i s tk HI Hwk Hlk Hwb) as [n Hn].
  exists n. split; [apply run_drain_events|]. split; [done|].
  pose proof (inv_trace _ (Inv_drain n s HI)) as Hwf.
  rewrite (trace_wf_completions _ Hwf), reverse_Permutation.
  apply NoDup_seq.
Qed.

Lemma eager_worker_completion_time_witness :
  (run [Submit op_A []; Submit op_B []; Submit op_C []] init
   = Some state_queued ∧
   worker state_queued = AtGet ∧
   items (queue state_queued) !! 2 = Some (op_C, [], 2) ∧
   Forall well_behaved (take 3 (items (queue state_queued)))) ∧
  ∃ n, run (drain_events n state_queued) state_queued
       = Some (drain n state_queued) ∧
       (2, 5) ∈ completions (trace (drain n state_queued)) ∧
       NoDup (completions (trace (drain n state_queued))).*1.
Proof.
  assert (Hwb : Forall well_behaved (take 3 (items (queue state_queued)))).
  { repeat constructor; by eexists. }
  split; [by split_and!|].
  apply (eager_worker_completion_time state_queued 2 (op_C, [], 2)).
  - exists [Submit op_A []; Submit op_B []; Submit op_C []]. reflexivity.
  - reflexivity.
  - reflexivity.
  - exact Hwb.
Defined.

(** ** No task is completed before its turn *)

Lemma durations_respected_tail sub o tr :
  durations_respected sub (o :: tr) → durations_respected sub tr.
Proof. destruct o; simpl; tauto. Qed.

Lemma durations_respected_suffix sub k tr :
  durations_respected sub (k ++ tr) → durations_respected sub tr.
Proof.
  induction k as [|o k IH]; [done|]. intros H. apply IH.
  by eapply durations_respected_tail.
Qed.

Lemma durations_respected_app sub new tr :
  durations_respected sub tr → durations_respected (sub ++ new) tr.
Proof.
  induction tr as [|o tr IH]; [done|].
  destruct o as [fut t|fut t|fut t]; simpl; try done.
  intros [Hhd Htl]. split; [|by apply IH].
  destruct tr as [|[] ?]; try done.
  destruct Hhd as (tk & Hlk & Hle). exists tk. split; [|done].
  by apply lookup_app_l_Some.
Qed.

Lemma durations_respected_do_event ev s s' :
  Inv s → durations_respected (submitted s) (trace s) →
  do_event ev s = Some s' →
  durations_respected (submitted s') (trace s').
Proof.
  intros HI HD Hev. destruct ev as [func args| |]; simpl in Hev.
  - unfold add_to_queue in Hev. destruct (put _ _); simplify_eq/=.
    by apply durations_respected_app.
  - by simplify_eq/=.
  - unfold process_queue in Hev.
    destruct (worker s) as [|tk since|since|e] eqn:Hwk; [| | |done].
    + destruct (get (queue s)) as [[tk q]|]; by simplify_eq/=.
    + destruct (AtFunc_facts _ _ _ HI Hwk) as (tr & Htr & _ & Hlk & _).
      destruct (task_behaviour tk) as [d o|] eqn:Hb; [|done].
      case_decide; [|done].
      destruct (try_except _ _ _); [|by simplify_eq/=].
      destruct (task_done _); simplify_eq/=; [|done].
      split; [|done]. rewrite Htr. exists tk. split; [done|].
      unfold duration. by rewrite Hb.
    + case_decide; by simplify_eq/=.
Qed.

Lemma durations_respected_run evs : ∀ s s',
  Inv s → durations_respected (submitted s) (trace s) →
  run evs s = Some s' →
  durations_respected (submitted s') (trace s').
Proof.
  induction evs as [|ev evs IH]; intros s s' HI HD Hrun; simpl in Hrun.
  - by simplify_eq.
  - destruct (do_event ev s) as [s1|] eqn:Hev; [|done].
    eapply IH; [| |done].
    + by eapply Inv_do_event.
    + by eapply durations_respected_do_event.
Qed.

Lemma sum_durations_S sub fut tk :
  sub !! fut = Some tk →
  sum_list (duration <$> take (S fut) sub)
  = sum_list (duration <$> take fut sub) + duration tk.
Proof.
  intros Hlk. rewrite (take_S_r _ _ _ Hlk), fmap_app, sum_list_with_app.
  simpl. lia.
Qed.

(** The newest observation does not come before its earliest time. *)
Lemma trace_wf_earliest sub tr :
  trace_wf tr → durations_respected sub tr →
  match tr with
  | [] => True
  | o :: _ => earliest sub o ≤ obs_time o
  end.
Proof.
  induction tr as [|o tr IH]; [done|]. intros Hwf HD.
  pose proof (trace_wf_tail _ _ Hwf) as Hwf'.
  pose proof (durations_respected_tail _ _ _ HD) as HD'.
  specialize (IH Hwf' HD').
  pose proof (trace_wf_counts _ Hwf') as Hc.
  destruct o as [fut t|fut t|fut t]; simpl in Hwf.
  - destruct Hwf as (-> & _ & Hhd).
    destruct tr as [|[f' c|f' c|f' c] tr']; try done; [simpl; lia|].
    pose proof (trace_wf_newest_completion _ _ _ Hwf') as ->.
    simpl in *. rewrite Hc. lia.
  - destruct Hwf as (_ & Hhd).
    destruct tr as [|[f0 t0|f0 t0|f0 t0] tr']; try done.
    destruct Hhd as [-> Hle]. destruct HD as [(tk & Hlk & Hd) _].
    simpl in *. rewrite (sum_durations_S _ _ _ Hlk). lia.
  - destruct Hwf as (_ & Hhd).
    destruct tr as [|[f0 t0|f0 t0|f0 t0] tr']; try done.
    destruct Hhd as [-> Hle]. simpl in *. lia.
Qed.

(** X8. In no execution is a task completed before its turn: the task [i]
    is completed at the time [d_0 + ... + d_i + i] at the earliest, the
    time the operations submitted up to it take one after the other, with
    a cooldown after each of the [i] tasks before it. It does not start
    before [d_0 + ... + d_(i-1) + i]. *)
Theorem no_task_is_completed_before_its_turn s :
  reachable s →
  (∀ i c, (i, c) ∈ completions (trace s) →
     sum_list (duration <$> take (S i) (submitted s)) + i ≤ c) ∧
  (∀ k i t tr, trace s = k ++ Started i t :: tr →
     sum_list (duration <$> take i (submitted s)) + i ≤ t).
Proof.
  intros Hr. pose proof (reachable_Inv _ Hr) as HI.
  pose proof (inv_trace _ HI) as Hwf.
  assert (HD : durations_respected (submitted s) (trace s)).
  { destruct Hr as [evs Hrun].
    by eapply (durations_respected_run evs init s Inv_init). }
  split.
  - intros i c Hin. apply elem_of_completions in Hin.
    apply list_elem_of_split in Hin as (k & tr & Heq). rewrite Heq in *.
    apply trace_wf_suffix in Hwf. apply durations_respected_suffix in HD.
    apply (trace_wf_earliest _ _ Hwf HD).
  - intros k i t tr Heq. rewrite Heq in *.
    apply trace_wf_suffix in Hwf. apply durations_respected_suffix in HD.
    apply (trace_wf_earliest _ _ Hwf HD).
Qed.

Lemma no_task_is_completed_before_its_turn_witness :
  run scenario_ABC init = Some state_ABC ∧
  (∀ i c, (i, c) ∈ completions (trace state_ABC) →
     sum_list (duration <$> take (S i) (submitted state_ABC)) + i ≤ c) ∧
  (∀ k i t tr, trace state_ABC = k ++ Started i t :: tr →
     sum_list (duration <$> take i (submitted state_ABC)) + i ≤ t).
Proof.
  split; [by vm_compute|].
  apply (no_task_is_completed_before_its_turn state_ABC).
  exists scenario_ABC. by vm_compute.
Defined.

(** * Further properties of the API wrappers *)

(** ** The tokens and the services *)

Lemma headers_kept_imported wov_token li_token :
  headers_kept {[ "Authorization" := "Bot " +:+ wov_token ]}
               {[ "Authorization" := "Bearer " +:+ li_token ]}
               (imported wov_token li_token).
Proof. split; simpl; try done. by left. Qed.

Lemma headers_kept_same wov li st st' :
  headers_kept wov li st → same_but_log st st' → headers_kept wov li st'.
Proof.
  intros [? ? ? ? ? ?] (Hh & Hwh & Hwu & Hlu & Hlh & Hs).
  split; rewrite ?Hh, ?Hwh, ?Hwu, ?Hlu, ?Hlh, ?Hs; done.
Qed.

Lemma same_but_log_logger_error msg st : same_but_log st (logger_error msg st).
Proof. by unfold same_but_log. Qed.

Lemma headers_kept_wov_request wov li st path :
  headers_kept wov li st →
  headers_kept wov li
    (record_request (WovApiCall_api_url st +:+ path)
       (deref st (WovApiCall_headers st)) st).
Proof.
  intros [? Hu ? Hw ? Hs]. split; simpl; try done.
  apply Forall_app. split; [done|]. constructor; [|done].
  left. simpl. split.
  - rewrite Hu. by exists path.
  - unfold deref. by rewrite Hw.
Qed.

Lemma headers_kept_lichess_request wov li st path :
  headers_kept wov li st →
  headers_kept wov li
    (record_request (LichessApiCall_lichess_url st +:+ path)
       (deref st (LichessApiCall_headers st)) st).
Proof.
  intros [? ? Hu ? Hl Hs]. split; simpl; try done.
  apply Forall_app. split; [done|]. constructor; [|done].
  right. simpl. split.
  - rewrite Hu. by exists path.
  - unfold deref. destruct Hl as [-> | ->]; simpl; [by left|by right].
Qed.

Lemma with_Accept_idemp h : with_Accept (with_Accept h) = with_Accept h.
Proof. unfold with_Accept. by rewrite insert_insert_eq. Qed.

Lemma headers_kept_after_request wov li a st :
  headers_kept wov li st → headers_kept wov li (after_request a st).
Proof.
  intros [Hd ? Hu Hw Hl Hs]. unfold after_request, export_url, export_headers.
  split; simpl; try done.
  - by rewrite lookup_insert_ne.
  - right. rewrite lookup_insert_eq. f_equal. unfold deref.
    destruct Hl as [-> | ->]; simpl; [done|]. apply with_Accept_idemp.
  - apply Forall_app. split; [done|]. constructor; [|done].
    right. simpl. split.
    + rewrite Hu. by eexists.
    + right. unfold deref.
      destruct Hl as [-> | ->]; simpl; [done|]. apply with_Accept_idemp.
Qed.

(** The state a wrapper leaves is the one after its request, with the log
    extended when the status is not 200. *)
Ltac solve_wov_wrapper session_get :=
  match goal with
  | |- context [session_get ?url ?h] =>
      destruct (session_get url h) as [response|e]; [case_decide|]; simpl;
      try (eapply headers_kept_same; [|apply same_but_log_logger_error])
  end.

Lemma headers_kept_perform_api
  session_get regulated_request json_loads requests_get wov li st c :
  headers_kept wov li st →
  headers_kept wov li
    (perform_api session_get regulated_request json_loads requests_get st c).
Proof.
  intros HK.
  destruct c as [user_id|username|clan_id|clan_name|clan_id| |c]; simpl.
  - unfold WovApiCall.get_user_by_id. solve_wov_wrapper session_get;
      apply (headers_kept_wov_request _ _ _ _ HK).
  - unfold WovApiCall.get_user_by_name. solve_wov_wrapper session_get;
      apply (headers_kept_wov_request _ _ _ _ HK).
  - unfold WovApiCall.get_clan_by_id. solve_wov_wrapper session_get;
      apply (headers_kept_wov_request _ _ _ _ HK).
  - unfold WovApiCall.get_clan_by_name. solve_wov_wrapper session_get;
      apply (headers_kept_wov_request _ _ _ _ HK).
  - unfold WovApiCall.get_clan_members. solve_wov_wrapper session_get;
      apply (headers_kept_wov_request _ _ _ _ HK).
  - unfold WovApiCall.get_shop. solve_wov_wrapper session_get;
      apply (headers_kept_wov_request _ _ _ _ HK).
  - destruct c as [username perf_type|g]; unfold perform.
    + unfold LichessApiCall.get_user_performance.
      destruct (requests_get _ _) as [response|e]; [case_decide|]; simpl;
        try (eapply headers_kept_same; [|apply same_but_log_logger_error]);
        apply (headers_kept_lichess_request _ _ _ _ HK).
    + destruct g as [a|username lines|].
      * eapply headers_kept_same; [|apply next_Created_same].
        by apply headers_kept_after_request.
      * eapply headers_kept_same; [done|]. apply for_loop_same.
      * done.
Qed.

Lemma headers_kept_foldl
  session_get regulated_request json_loads requests_get wov li calls : ∀ st,
  headers_kept wov li st →
  headers_kept wov li
    (foldl (perform_api session_get regulated_request json_loads requests_get)
       st calls).
Proof.
  induction calls as [|c calls IH]; intros st HK; simpl; [done|].
  by apply IH, headers_kept_perform_api.
Qed.

Lemma headers_kept_deref wov li st :
  headers_kept wov li st →
  deref st (WovApiCall_headers st) = wov ∧
  (deref st (LichessApiCall_headers st) = li ∨
   deref st (LichessApiCall_headers st) = with_Accept li).
Proof.
  intros [_ _ _ Hw Hl _]. unfold deref. rewrite Hw. split; [done|].
  destruct Hl as [-> | ->]; [by left|by right].
Qed.

(** X9. Whatever the callers do with the two classes after the import, in
    whatever order and whatever the services answer, every request goes to
    the service of its token: the Wolvesville requests go to URLs under
    [https://api.wolvesville.com/] with the headers [WovApiCall.headers]
    had at the import, and the Lichess requests to URLs under
    [https://lichess.org/api/] with the [Authorization] entry of the
    import, to which [export_by_player] may have added [Accept]. The two
    classes never come to share a dictionary: the [Accept] entry does not
    reach the Wolvesville requests, and no [Authorization] entry is ever
    changed. *)
Theorem tokens_go_to_their_own_service
  (session_get : string → dict → outcome aiohttp.ClientResponse)
  (regulated_request :
     string → dict → list (string * pyval) → outcome requests.Response)
  (json_loads : string → outcome pyval)
  (requests_get : string → dict → outcome requests.Response)
  (wov_token li_token : string) (calls : list api_call) :
  let st := foldl (perform_api session_get regulated_request json_loads
                     requests_get)
              (imported wov_token li_token) calls in
  let wov : dict := {[ "Authorization" := "Bot " +:+ wov_token ]} in
  let li : dict := {[ "Authorization" := "Bearer " +:+ li_token ]} in
  deref st (WovApiCall_headers st) = wov ∧
  (deref st (LichessApiCall_headers st) = li ∨
   deref st (LichessApiCall_headers st)
   = <["Accept" := "application/x-ndjson"]> li) ∧
  WovApiCall_api_url st = "https://api.wolvesville.com/" ∧
  LichessApiCall_lichess_url st = "https://lichess.org/api/" ∧
  Forall (λ req,
            starts_with "https://api.wolvesville.com/" req.1 ∧ req.2 = wov ∨
            starts_with "https://lichess.org/api/" req.1 ∧
            (req.2 = li ∨ req.2 = <["Accept" := "application/x-ndjson"]> li))
         (sent st).
Proof.
  intros st wov li.
  assert (HK : headers_kept wov li st).
  { apply headers_kept_foldl, headers_kept_imported. }
  destruct (headers_kept_deref _ _ _ HK) as [Hw Hl].
  split_and!; try done; apply HK.
Qed.

Lemma starts_with_services url :
  starts_with "https://api.wolvesville.com/" url →
  starts_with "https://lichess.org/api/" url → False.
Proof. intros [r1 ->] [r2 H]. simpl in H. by simplify_eq. Qed.

(** X10. A token that is not set in the environment does not make the
    import fail: [os.getenv] gives [None] and the header is built from it.
    Every Wolvesville request is then sent with [Authorization: Bot None],
    every Lichess request with [Authorization: Bearer None]. *)
Theorem missing_token_is_sent_as_None
  (session_get : string → dict → outcome aiohttp.ClientResponse)
  (regulated_request :
     string → dict → list (string * pyval) → outcome requests.Response)
  (json_loads : string → outcome pyval)
  (requests_get : string → dict → outcome requests.Response)
  (environ : gmap string string) (calls : list api_call) :
  let st := foldl (perform_api session_get regulated_request json_loads
                     requests_get)
              (import_module environ) calls in
  (environ !! "WOV_API_TOKEN" = None →
   deref st (WovApiCall_headers st) = {[ "Authorization" := "Bot None" ]} ∧
   Forall (λ req, starts_with "https://api.wolvesville.com/" req.1 →
                  req.2 = {[ "Authorization" := "Bot None" ]}) (sent st)) ∧
  (environ !! "LI_API_TOKEN" = None →
   deref st (LichessApiCall_headers st) !! "Authorization"
   = Some "Bearer None" ∧
   Forall (λ req, starts_with "https://lichess.org/api/" req.1 →
                  req.2 !! "Authorization" = Some "Bearer None") (sent st)).
Proof.
  intros st.
  pose proof (headers_kept_foldl session_get regulated_request json_loads
                requests_get _ _ calls _
                (headers_kept_imported
                   (getenv_formatted environ "WOV_API_TOKEN")
                   (getenv_formatted environ "LI_API_TOKEN"))) as HK.
  fold (import_module environ) in HK. fold st in HK.
  destruct (headers_kept_deref _ _ _ HK) as [Hw Hl].
  pose proof (kept_sent _ _ _ HK) as Hs.
  split.
  - intros Henv. unfold getenv_formatted in *. rewrite Henv in *.
    split; [done|].
    eapply Forall_impl; [exact Hs|]. simpl.
    intros req [[_ ->]|[Hli _]] Hwov; [done|].
    destruct (starts_with_services _ Hwov Hli).
  - intros Henv. unfold getenv_formatted in *. rewrite Henv in *.
    split.
    + destruct Hl as [-> | ->]; by vm_compute.
    + eapply Forall_impl; [exact Hs|]. simpl.
      intros req [[Hwov _]|[_ [-> | ->]]] Hli; [|by vm_compute..].
      destruct (starts_with_services _ Hwov Hli).
Qed.

(** ** Where the [Accept] entry comes from *)

(** What a call does to the dictionary [LichessApiCall.headers] names. *)
Lemma perform_api_headers
  session_get regulated_request json_loads requests_get st c :
  let st' := perform_api session_get regulated_request json_loads
               requests_get st c in
  deref st' (LichessApiCall_headers st')
  = if starts_export c
    then with_Accept (deref st (LichessApiCall_headers st))
    else deref st (LichessApiCall_headers st).
Proof.
  destruct c as [user_id|username|clan_id|clan_name|clan_id| |c]; simpl.
  - unfold WovApiCall.get_user_by_id.
    by destruct (session_get _ _) as [response|e]; [case_decide|].
  - unfold WovApiCall.get_user_by_name.
    by destruct (session_get _ _) as [response|e]; [case_decide|].
  - unfold WovApiCall.get_clan_by_id.
    by destruct (session_get _ _) as [response|e]; [case_decide|].
  - unfold WovApiCall.get_clan_by_name.
    by destruct (session_get _ _) as [response|e]; [case_decide|].
  - unfold WovApiCall.get_clan_members.
    by destruct (session_get _ _) as [response|e]; [case_decide|].
  - unfold WovApiCall.get_shop.
    by destruct (session_get _ _) as [response|e]; [case_decide|].
  - destruct c as [username perf_type|g]; unfold perform.
    + unfold LichessApiCall.get_user_performance.
      by destruct (requests_get _ _) as [response|e]; [case_decide|].
    + destruct g as [a|username lines|]; simpl starts_export; cbv iota.
      * rewrite (deref_same _ _ (next_Created_same _ _ a st)).
        apply deref_after_request.
      * apply (deref_same _ _ (for_loop_same json_loads username lines st)).
      * done.
Qed.

Lemma foldl_perform_api_Accept
  session_get regulated_request json_loads requests_get calls : ∀ st,
  let st' := foldl (perform_api session_get regulated_request json_loads
                      requests_get) st calls in
  deref st' (LichessApiCall_headers st') !! "Accept"
  = if existsb starts_export calls then Some "application/x-ndjson"
    else deref st (LichessApiCall_headers st) !! "Accept".
Proof.
  induction calls as [|c calls IH]; intros st; simpl; [done|].
  rewrite IH, perform_api_headers.
  destruct (starts_export c); simpl; [|done].
  destruct (existsb starts_export calls); [done|].
  unfold with_Accept. by rewrite lookup_insert_eq.
Qed.

(** X11. [LichessApiCall.headers] holds the [Accept] entry exactly when the
    generator of some [export_by_player] has been advanced for the first
    time: no other call of the two classes sets it, none removes it, and
    [WovApiCall.headers] never holds it. *)
Theorem Accept_is_set_by_first_next_only
  (session_get : string → dict → outcome aiohttp.ClientResponse)
  (regulated_request :
     string → dict → list (string * pyval) → outcome requests.Response)
  (json_loads : string → outcome pyval)
  (requests_get : string → dict → outcome requests.Response)
  (wov_token li_token : string) (calls : list api_call) :
  let st := foldl (perform_api session_get regulated_request json_loads
                     requests_get)
              (imported wov_token li_token) calls in
  deref st (LichessApiCall_headers st) !! "Accept"
  = (if existsb starts_export calls then Some "application/x-ndjson"
     else None) ∧
  deref st (WovApiCall_headers st) !! "Accept" = None.
Proof.
  intros st. split.
  - unfold st. by rewrite foldl_perform_api_Accept.
  - pose proof (headers_kept_foldl session_get regulated_request json_loads
                  requests_get _ _ calls _
                  (headers_kept_imported wov_token li_token)) as HK.
    destruct (headers_kept_deref _ _ _ HK) as [Hw _].
    fold st in Hw. by rewrite Hw.
Qed.

(** * Further properties of the export *)

Section ExportRequests.

Context (regulated_request :
  string → dict → list (string * pyval) → outcome requests.Response).
Context (json_loads : string → outcome pyval).

Local Abbreviation next := (LichessApiCall.next regulated_request json_loads).

Local Abbreviation iterate :=
  (LichessApiCall.iterate regulated_request json_loads).

Local Abbreviation for_loop := (LichessApiCall.for_loop json_loads).

(** How the [for] loop can leave off: at a [yield], with nothing changed;
    at its end; or in the [except] clause. *)
Lemma for_loop_cases username lines st :
  (∃ v rest, for_loop username lines st
             = (LichessApiCall.Yielded v,
                LichessApiCall.Suspended username rest, st)) ∨
  for_loop username lines st
  = (LichessApiCall.StopIteration, LichessApiCall.Finished, st) ∨
  (∃ e, isinstance_Exception e = true ∧
        for_loop username lines st
        = (LichessApiCall.StopIteration, LichessApiCall.Finished,
           logger_error (export_error username e) st)) ∨
  (∃ e, isinstance_Exception e = false ∧
        for_loop username lines st
        = (LichessApiCall.Propagated e, LichessApiCall.Finished, st)).
Proof.
  induction lines as [|line rest IH]; simpl.
  - by right; left.
  - destruct (truthy (strip line)); [|done].
    destruct (json_loads line) as [v|e].
    + left. by exists v, rest.
    + unfold LichessApiCall.except_clause.
      destruct (isinstance_Exception e) eqn:He.
      * right; right; left. by exists e.
      * right; right; right. by exists e.
Qed.

(** The state after an iteration over a generator that has started: the
    one before it, or that one with the error line of the [except] clause,
    with which the iteration has ended. *)
Lemma iterate_started n : ∀ username lines st,
  ∃ vs r st',
    iterate n (LichessApiCall.Suspended username lines) st = (vs, r, st') ∧
    (st' = st ∨
     ∃ e, isinstance_Exception e = true ∧
          r = Some LichessApiCall.StopIteration ∧
          st' = logger_error (export_error username e) st).
Proof.
  induction n as [|n IH]; intros username lines st.
  - exists [], None, st. split; [done|by left].
  - rewrite iterate_S.
    change (LichessApiCall.next regulated_request json_loads
              (LichessApiCall.Suspended username lines) st)
      with (for_loop username lines st).
    destruct (for_loop_cases username lines st)
      as [(v & rest & ->)|[->|[(e & He & ->)|(e & He & ->)]]].
    + destruct (IH username rest st) as (vs & r & st' & Hit & Hst).
      rewrite Hit. by exists (v :: vs), r, st'.
    + eexists _, _, _. split; [done|by left].
    + eexists _, _, _. split; [done|]. right. by exists e.
    + eexists _, _, _. split; [done|by left].
Qed.

(** X12. An export makes one request, at the first [next], whether the
    iteration is carried to its end or given up after some objects, and
    whether it fails or not: the later calls of [next] make none. It logs
    at most one line, the error with which it ends. *)
Theorem export_makes_one_request a st n :
  ∃ vs r st',
    iterate (S n) (LichessApiCall.export_by_player a st).1
      (LichessApiCall.export_by_player a st).2 = (vs, r, st') ∧
    sent st' = sent st ++ [(export_url a st, export_headers st)] ∧
    heap st' = heap (after_request a st) ∧
    (log st' = log st ∨
     ∃ e, isinstance_Exception e = true ∧
          r = Some LichessApiCall.StopIteration ∧
          log st' = log st ++ [export_error (LichessApiCall.username a) e]) ∧
    (∀ m username lines st0,
       sent (iterate m (LichessApiCall.Suspended username lines) st0).2
       = sent st0) ∧
    (∀ m st0, sent (iterate m LichessApiCall.Finished st0).2 = sent st0).
Proof.
  assert (Hstarted : ∀ m username lines st0,
    sent (iterate m (LichessApiCall.Suspended username lines) st0).2
    = sent st0).
  { intros m username lines st0.
    destruct (iterate_started m username lines st0)
      as (vs & r & st' & -> & [->|(e & _ & _ & ->)]); done. }
  assert (Hmain : ∃ vs r st',
    iterate (S n) (LichessApiCall.Created a) st = (vs, r, st') ∧
    (st' = after_request a st ∨
     ∃ e, isinstance_Exception e = true ∧
          r = Some LichessApiCall.StopIteration ∧
          st' = logger_error
                  (export_error (LichessApiCall.username a) e)
                  (after_request a st))).
  { rewrite iterate_S, next_Created.
    destruct (regulated_request _ _ _) as [resp|e].
    - pose proof (iterate_started (S n) (LichessApiCall.username a)
                    (splitlines (requests.text resp)) (after_request a st))
        as Hit.
      rewrite iterate_S in Hit. exact Hit.
    - unfold LichessApiCall.except_clause.
      destruct (isinstance_Exception e) eqn:He.
      + eexists _, _, _. split; [done|]. right. by exists e.
      + eexists _, _, _. split; [done|by left]. }
  destruct Hmain as (vs & r & st' & Hit & Hst).
  exists vs, r, st'. split; [exact Hit|].
  split_and!.
  - destruct Hst as [->|(e & _ & _ & ->)]; done.
  - destruct Hst as [->|(e & _ & _ & ->)]; done.
  - destruct Hst as [->|(e & He & Hr & ->)]; [by left|].
    right. by exists e.
  - exact Hstarted.
  - intros [|m] st0; done.
Qed.

(** The iteration a consumer stops after [n] objects. *)
Lemma iterate_stopped username : ∀ lines n st vs st',
  iterate n (LichessApiCall.Suspended username lines) st = (vs, None, st') →
  length vs = n ∧ st' = st ∧
  Forall2 (λ line v, json_loads line = Returned v)
    (take n (non_blank lines)) vs ∧
  n ≤ length (non_blank lines).
Proof.
  induction lines as [|line rest IH]; intros n st vs st' Hit.
  - destruct n as [|n]; [by simplify_eq/=|]. by simplify_eq/=.
  - destruct n as [|n].
    { simplify_eq/=. split_and!; try done; try constructor; lia. }
    unfold non_blank. rewrite filter_cons.
    pose proof (truthy_strip line) as Hts.
    destruct (blank line) eqn:Hb; simpl in Hts.
    + rewrite decide_False by done. apply IH. rewrite <- Hit.
      simpl. by rewrite Hts.
    + rewrite decide_True by done.
      simpl in Hit. rewrite Hts in Hit.
      destruct (json_loads line) as [v|e] eqn:Hj.
      * destruct (LichessApiCall.iterate regulated_request json_loads n
                    (LichessApiCall.Suspended username rest) st)
          as [[vs0 r0] st0] eqn:Hit0.
        simplify_eq. destruct (IH _ _ _ _ Hit0) as (Hl & -> & Hf & Hle).
        unfold non_blank in *. simpl.
        split_and!; try done; [by f_equal|by constructor|lia].
      * unfold LichessApiCall.except_clause in Hit.
        by destruct (isinstance_Exception e).
Qed.

(** X13. A consumer that stops after [n] objects has got the objects of the
    first [n] non-blank lines of the body, in their order; nothing is
    logged, and the lines it did not ask for are not decoded: one among
    them that is no JSON does no harm. *)
Theorem export_gives_first_objects_to_early_stop a st resp n vs st' :
  regulated_request (export_url a st) (export_headers st)
    (LichessApiCall.params a) = Returned resp →
  iterate n (LichessApiCall.export_by_player a st).1
    (LichessApiCall.export_by_player a st).2 = (vs, None, st') →
  length vs = n ∧
  n ≤ length (non_blank (splitlines (requests.text resp))) ∧
  Forall2 (λ line v, json_loads line = Returned v)
    (take n (non_blank (splitlines (requests.text resp)))) vs ∧
  log st' = log st ∧
  (0 < n → st' = after_request a st).
Proof.
  intros Hreq Hit. unfold LichessApiCall.export_by_player in Hit.
  cbn [fst snd] in Hit.
  destruct n as [|n].
  { simplify_eq/=. split_and!; try done; try constructor; lia. }
  assert (Hit' : iterate (S n)
            (LichessApiCall.Suspended (LichessApiCall.username a)
               (splitlines (requests.text resp))) (after_request a st)
          = (vs, None, st')).
  { rewrite <- Hit. symmetry. apply iterate_next.
    by rewrite next_Created, Hreq. }
  destruct (iterate_stopped _ _ _ _ _ _ Hit') as (Hl & -> & Hf & Hle).
  split_and!; done.
Qed.

End ExportRequests.

Lemma export_gives_first_objects_to_early_stop_witness :
  (responds broken_body
     (export_url (LichessApiCall.defaults "ann") (imported "w" "l"))
     (export_headers (imported "w" "l"))
     (LichessApiCall.params (LichessApiCall.defaults "ann"))
   = Returned (response_with broken_body) ∧
   LichessApiCall.iterate (responds broken_body) sample_loads 1
     (LichessApiCall.export_by_player (LichessApiCall.defaults "ann")
        (imported "w" "l")).1
     (LichessApiCall.export_by_player (LichessApiCall.defaults "ann")
        (imported "w" "l")).2
   = ([VInt 1], None,
      after_request (LichessApiCall.defaults "ann") (imported "w" "l"))) ∧
  length [VInt 1] = 1 ∧
  1 ≤ length (non_blank (splitlines (requests.text (response_with broken_body)))) ∧
  Forall2 (λ line v, sample_loads line = Returned v)
    (take 1 (non_blank (splitlines (requests.text (response_with broken_body)))))
    [VInt 1] ∧
  log (after_request (LichessApiCall.defaults "ann") (imported "w" "l"))
  = log (imported "w" "l") ∧
  (0 < 1 → after_request (LichessApiCall.defaults "ann") (imported "w" "l")
           = after_request (LichessApiCall.defaults "ann") (imported "w" "l")).
Proof.
  split; [split; [reflexivity|vm_compute; reflexivity]|].
  apply (export_gives_first_objects_to_early_stop (responds broken_body)
           sample_loads (LichessApiCall.defaults "ann") (imported "w" "l")
           (response_with broken_body) 1 [VInt 1]).
  - reflexivity.
  - vm_compute; reflexivity.
Defined.
